(** * TSMap: an insertion-ordered map over two parallel arrays

    A shallow embedding of class [TSMap<K, V>] of [src/index.ts] (the later of
    the two versions in that file) and the properties of its specification.

    The class keeps three fields, [_keys], [_values] and [length]; every
    method mutates [this] and most of them return it.  A method is embedded
    as a function from the state before the call to the state after it
    (paired with the returned value when that is not [this]).

    Layout: Part I holds the model (JavaScript arrays, the class, the JSON
    conversion, a store with references for aliasing); Part II the lemmas
    and the theorems of the specification; Part III further properties of
    the methods, among them [deepGet], [filter], [map], [forEach], and the
    earlier class [tsMap] of the same file. *)

From Stdlib Require Import ZArith Lia String Ascii DecimalString Sorted.
From Stdlib Require DecimalPos DecimalZ.
From stdpp Require Import base list sorting gmap strings.

(* ===================================================================== *)
(** * Part I: the model                                                    *)
(* ===================================================================== *)

(** ** JavaScript arrays

    An array is a list; an index is an integer, as in the source, where
    [indexOf] answers [-1] and [splice] accepts any number. *)

Module JsArray.
Section Array.
Context {A : Type}.

(** [arr[i]]; [None] is the [undefined] read outside the array. *)
Definition at_ (arr : list A) (i : Z) : option A :=
  if (i <? 0)%Z then None else arr !! Z.to_nat i.

(** [arr.push(x)] *)
Definition push (arr : list A) (x : A) : list A := arr ++ [x].

(** [arr.splice(start, deleteCount, ...items)]: the array after the call.
    A negative [start] counts from the end, a [start] past the end is the
    end, and no more than the remaining elements are deleted. *)
Definition splice (arr : list A) (start deleteCount : Z) (items : list A)
  : list A :=
  let len := Z.of_nat (List.length arr) in
  let actualStart :=
    if (start <? 0)%Z then Z.max (len + start) 0 else Z.min start len in
  let actualDeleteCount :=
    Z.min (Z.max deleteCount 0) (len - actualStart) in
  take (Z.to_nat actualStart) arr ++ items
    ++ drop (Z.to_nat (actualStart + actualDeleteCount)) arr.

(** [arr[i] = x].  Inside the array the slot is overwritten; past the end
    the array grows, and the slots in between read [undef]; a negative
    [i] names a property that is no element. *)
Definition assign (undef : A) (arr : list A) (i : Z) (x : A) : list A :=
  let len := Z.of_nat (List.length arr) in
  if (i <? 0)%Z then arr
  else if (i <? len)%Z then <[Z.to_nat i := x]> arr
  else arr ++ replicate (Z.to_nat (i - len)) undef ++ [x].

(** [arr.indexOf(x)]: the first index holding [x], or [-1].

    The source compares with [===], which is equality on every value but
    [NaN], the one value not [===] to itself.  The comparison here is the
    equality of the element type, so an element type of this model holds
    no [NaN], and every statement about keys below is a statement about
    keys other than [NaN].  ([indexOf] never finds [NaN]: a map of the
    source takes a [NaN] key as a new key at every [set].) *)
Fixpoint indexOf_from `{EqDecision A} (arr : list A) (x : A) (i : Z) : Z :=
  match arr with
  | [] => (-1)%Z
  | y :: arr' => if decide (x = y) then i else indexOf_from arr' x (i + 1)%Z
  end.

Definition indexOf `{EqDecision A} (arr : list A) (x : A) : Z :=
  indexOf_from arr x 0%Z.
End Array.
End JsArray.

(** ** The interfaces of the type parameters

    [V] is any JavaScript value, so it has [undefined], which [get] returns
    for a missing key and which reads outside an array yield. *)

Class JsValue (V : Type) := undefined : V.

(** [sortedSet] compares keys with [==], [<] and [>].  [a > b] is [b < a]
    with the operands swapped.  A comparison against an array slot that does
    not exist is a comparison against [undefined]: [<] and [>] are then
    false, and [==] holds exactly for the keys [null] and [undefined], which
    [nullish] recognises. *)

Class SortKey (K : Type) := {
  loose_eq : K -> K -> bool;
  js_lt : K -> K -> bool;
  nullish : K -> bool
}.

Definition js_gt `{SortKey K} (a b : K) : bool := js_lt b a.

(** What [sortedSet] asks of its keys: [<] is a strict total order, [==]
    is equality, and no key is [null] or [undefined]. *)
Class TotalSortKey (K : Type) `{SortKey K} : Prop := {
  loose_eq_spec : forall a b : K, loose_eq a b = true <-> a = b;
  js_lt_irrefl : forall a : K, js_lt a a = false;
  js_lt_trans : forall a b c : K,
    js_lt a b = true -> js_lt b c = true -> js_lt a c = true;
  js_lt_total : forall a b : K, js_lt a b = true \/ a = b \/ js_lt b a = true;
  nullish_never : forall a : K, nullish a = false
}.

(** ** The class *)

Module TSMap.

Record TSMap (K V : Type) := mk {
  _keys : list K;
  _values : list V;
  length : nat
}.
Arguments mk {K V}.
Arguments _keys {K V}.
Arguments _values {K V}.
Arguments length {K V}.

Section Methods.
Context {K V : Type} `{EqDecision K} `{JsValue V}.
Import JsArray.

Local Abbreviation TSMap := (TSMap K V).

(** The state the constructor sets up before it reads [inputMap]. *)
Definition empty : TSMap := mk [] [] 0.

(** [keys()] and [values()] answer copies of the two arrays. *)
Definition keys (t : TSMap) : list K := _keys t.
Definition values (t : TSMap) : list V := _values t.

Definition has (t : TSMap) (key : K) : bool :=
  (indexOf (_keys t) key >? -1)%Z.

Definition get (t : TSMap) (key : K) : V :=
  let i := indexOf (_keys t) key in
  if (i >? -1)%Z then default undefined (at_ (_values t) i) else undefined.

Definition set (t : TSMap) (key : K) (value : V) : TSMap :=
  let i := indexOf (_keys t) key in
  if (i >? -1)%Z then
    mk (_keys t) (assign undefined (_values t) i value) (length t)
  else
    let ks := push (_keys t) key in
    let vs := push (_values t) value in
    mk ks vs (List.length vs).

Definition size (t : TSMap) : nat := length t.

Definition clear (t : TSMap) : TSMap := mk [] [] 0.

(** [delete(key)]: the state after the call and the returned boolean. *)
Definition delete (t : TSMap) (key : K) : TSMap * bool :=
  let i := indexOf (_keys t) key in
  if (i >? -1)%Z then
    let ks := splice (_keys t) i 1 [] in
    let vs := splice (_values t) i 1 [] in
    (mk ks vs (List.length ks), true)
  else (t, false).

(** [entries()]: one pair [[k, this.get(k)]] for each key. *)
Definition entries (t : TSMap) : list (K * V) :=
  List.map (fun k => (k, get t k)) (keys t).

(** [new TSMap(inputMap)]; each inner array is read at [0] and [1]. *)
Definition new (inputMap : option (list (K * V))) : TSMap :=
  match inputMap with
  | Some entries => fold_left (fun t kv => set t (fst kv) (snd kv)) entries empty
  | None => empty
  end.

Definition clone (t : TSMap) : TSMap := new (Some (entries t)).

(** [filter(callbackfn)] walks a copy of the keys taken at entry and
    deletes from the live map.  [callbackfn v k i] is [false] when the
    callback returns exactly [false]; the callback is taken to be a pure
    function. *)
Definition filter (t : TSMap) (callbackfn : V -> K -> Z -> bool) : TSMap :=
  fold_left
    (fun t iv =>
       let '(i, v) := iv in
       if negb (callbackfn (get t v) v (Z.of_nat i)) then fst (delete t v)
       else t)
    (imap pair (_keys t)) t.

(** [forEach(callbackfn)] walks [_keys] and hands the callback
    [this.get(v)], [v] and the index.  What the callback does is its effect
    on a state [S] of its own, threaded through the calls; it is taken not
    to touch the map. *)
Definition forEach {S : Type} (t : TSMap) (callbackfn : V -> K -> Z -> S -> S)
    (s : S) : S :=
  fold_left
    (fun s iv => callbackfn (get t (snd iv)) (snd iv) (Z.of_nat (fst iv)) s)
    (imap pair (_keys t)) s.

(** [map(callbackfn)]: the results of a pure callback, one for each key. *)
Definition map {B : Type} (t : TSMap) (callbackfn : V -> K -> Z -> B) : list B :=
  imap (fun i itemKey => callbackfn (get t itemKey) itemKey (Z.of_nat i))
    (keys t).

(** [sortedSet].  The recursion of the source narrows [start .. end];
    [fuel] bounds its depth, and [sortedSet_at] below supplies the width of
    the range, which the recursion cannot use up: [sortedSet_at_unfold] in
    Part II is the equation of the source, with no fuel in it. *)
Context `{SortKey K}.

(** [key == ks[i]], [key > ks[i]] and [key < ks[i]] *)
Definition eq_slot (key : K) (ks : list K) (i : Z) : bool :=
  match at_ ks i with Some k => loose_eq key k | None => nullish key end.
Definition gt_slot (key : K) (ks : list K) (i : Z) : bool :=
  match at_ ks i with Some k => js_gt key k | None => false end.
Definition lt_slot (key : K) (ks : list K) (i : Z) : bool :=
  match at_ ks i with Some k => js_lt key k | None => false end.

Fixpoint sortedSet_fuel (fuel : nat) (t : TSMap) (key : K) (value : V)
    (start end_ : Z) : TSMap :=
  let length := List.length (_keys t) in
  if Nat.eqb length 0 then
    mk (push (_keys t) key) (push (_values t) value) (TSMap.length t)
  else if eq_slot key (_keys t) start then
    mk (_keys t) (splice (_values t) start 0 [value]) (TSMap.length t)
  else if eq_slot key (_keys t) end_ then
    mk (_keys t) (splice (_values t) end_ 0 [value]) (TSMap.length t)
  else if gt_slot key (_keys t) end_ then
    mk (splice (_keys t) (end_ + 1) 0 [key])
       (splice (_values t) (end_ + 1) 0 [value]) (TSMap.length t)
  else if lt_slot key (_keys t) start then
    mk (splice (_keys t) start 0 [key])
       (splice (_values t) start 0 [value]) (TSMap.length t)
  else if (start >=? end_)%Z then t
  else
    let m := (start + (end_ - start) / 2)%Z in
    match fuel with
    | O => t
    | S fuel' =>
        if lt_slot key (_keys t) m then
          sortedSet_fuel fuel' t key value start (m - 1)
        else if gt_slot key (_keys t) m then
          sortedSet_fuel fuel' t key value (m + 1) end_
        else t
    end.

(** One call with both bounds given. *)
Definition sortedSet_at (t : TSMap) (key : K) (value : V) (start end_ : Z)
  : TSMap :=
  sortedSet_fuel (Z.to_nat (end_ - start)) t key value start end_.

(** [sortedSet(key, value, startVal?, endVal?)]: [startVal || 0] and
    [endVal !== undefined ? endVal : length - 1]. *)
Definition sortedSet (t : TSMap) (key : K) (value : V)
    (startVal endVal : option Z) : TSMap :=
  let start := default 0%Z startVal in
  let end_ := default (Z.of_nat (List.length (_keys t)) - 1)%Z endVal in
  sortedSet_at t key value start end_.
End Methods.

(** What [deepGet] asks of a value: whether it is [undefined] or [null]
    ([absent]), whether it is a map ([instanceof_TSMap]), and, for a value
    that is no map, the property [obj[k]] of the language ([property]). *)
Class Nesting (K V : Type) := {
  null : V;
  absent : V -> bool;
  instanceof_TSMap : V -> option (TSMap K V);
  property : V -> K -> V
}.

Section DeepGet.
Context {K V : Type} `{EqDecision K} `{JsValue V} `{Nesting K V}.

(** the inner function of [deepGet]; [path.slice(1)] is the tail *)
Fixpoint recursiveGet (obj : V) (path : list K) : V :=
  if absent obj then null
  else
    match path with
    | [] => obj
    | k :: path' =>
        recursiveGet
          (match instanceof_TSMap obj with
           | Some m => get m k
           | None => property obj k
           end)
          path'
    end.

(** [deepGet(path)], for a path that is an array *)
Definition deepGet (t : TSMap K V) (path : list K) : V :=
  match path with
  | [] => null
  | k :: path' => recursiveGet (get t k) path'
  end.
End DeepGet.
End TSMap.

(** ** The earlier class

    [tsMap<K, V>], the first class of the file, keeps a third array,
    [_items], of the pairs [[key, value]], and reads [size()] off it.  Its
    [set] writes into the pair [_items[i]], which throws a [TypeError]
    when there is no such pair: [set] answers [None] then. *)

Module tsMap.

Record tsMap (K V : Type) := mk {
  _items : list (K * V);
  _keys : list K;
  _values : list V;
  length : nat
}.
Arguments mk {K V}.
Arguments _items {K V}.
Arguments _keys {K V}.
Arguments _values {K V}.
Arguments length {K V}.

Section Methods.
Context {K V : Type} `{EqDecision K} `{JsValue V}.
Import JsArray.

Local Abbreviation tsMap := (tsMap K V).

Definition empty : tsMap := mk [] [] [] 0.

Definition keys (t : tsMap) : list K := _keys t.
Definition values (t : tsMap) : list V := _values t.

(** [entries()] answers a copy of [_items]; the pairs in it are the pairs
    of the map. *)
Definition entries (t : tsMap) : list (K * V) := _items t.

Definition has (t : tsMap) (key : K) : bool :=
  (indexOf (_keys t) key >? -1)%Z.

Definition get (t : tsMap) (key : K) : V :=
  let i := indexOf (_keys t) key in
  if (i >? -1)%Z then default undefined (at_ (_values t) i) else undefined.

Definition size (t : tsMap) : nat := List.length (_items t).

Definition set (t : tsMap) (key : K) (value : V) : option tsMap :=
  let i := indexOf (_keys t) key in
  if (i >? -1)%Z then
    match at_ (_items t) i with
    | Some item =>
        let items := <[Z.to_nat i := (fst item, value)]> (_items t) in
        Some (mk items (_keys t) (assign undefined (_values t) i value)
                (List.length items))
    | None => None
    end
  else
    let items := push (_items t) (key, value) in
    Some (mk items (push (_keys t) key) (push (_values t) value)
            (List.length items)).

Definition clear (t : tsMap) : tsMap := mk [] [] [] 0.

Definition delete (t : tsMap) (key : K) : tsMap * bool :=
  let i := indexOf (_keys t) key in
  if (i >? -1)%Z then
    let items := splice (_items t) i 1 [] in
    (mk items (splice (_keys t) i 1 []) (splice (_values t) i 1 [])
       (List.length items), true)
  else (t, false).

(** [filter(callbackfn)] walks the live array [_keys] with [forEach] while
    it deletes from it: [forEach] counts the indices up to the length the
    array had at entry and visits an index when the array still has it.
    [callbackfn v k] is [false] when the callback's answer [== false]. *)
Definition filter (t : tsMap) (callbackfn : V -> K -> bool) : tsMap :=
  fold_left
    (fun t i =>
       match _keys t !! i with
       | Some v =>
           if negb (callbackfn (get t v) v) then fst (delete t v) else t
       | None => t
       end)
    (seq 0 (List.length (_keys t))) t.
End Methods.
End tsMap.

(** ** Primitive values

    Numbers are modelled by the integers (the safe integers of the source
    language, printed in plain decimal); strings by [string].  On
    primitives [===], which [indexOf] uses, is equality, [NaN] being left
    out.  Keys are primitives: an object key would be compared by
    identity, which a value without an address does not have. *)

Inductive prim :=
| PUndefined
| PNull
| PBool (b : bool)
| PNum (n : Z)
| PStr (s : string).

#[global] Instance prim_eq_dec : EqDecision prim.
Proof. solve_decision. Defined.

#[global] Instance prim_value : JsValue prim := PUndefined.

(** [String(k)] *)
Definition String_ (k : prim) : string :=
  match k with
  | PUndefined => "undefined"
  | PNull => "null"
  | PBool true => "true"
  | PBool false => "false"
  | PNum n => NilZero.string_of_int (Z.to_int n)
  | PStr s => s
  end.

(** Numbers as keys of [sortedSet]: [==], [<] on two numbers, and no number
    is [null] or [undefined]. *)
#[global] Instance Z_sortkey : SortKey Z :=
  {| loose_eq := Z.eqb; js_lt := Z.ltb; nullish := fun _ => false |}.

(** ** JSON data and the values of a map

    [json] is what [fromJSON] reads and [toJSON] writes: primitives, arrays
    and plain objects.  A plain object lists its own enumerable properties
    in the order they were created, one entry per name, and records its
    prototype: [None] is [Object.prototype], as for [{}] and for parsed
    JSON; [Some (JPrim PNull)] is no prototype; [Some o] is the object [o].

    [mval] is what a map over JSON data holds: what [fromJSON] stores, and
    maps nested by hand.  A plain object stored in a map is JSON data, so a
    map inside a plain object is outside this type. *)

Module Json.
Import TSMap.

Unset Elimination Schemes.

Inductive json :=
| JPrim (p : prim)
| JArr (elems : list json)
| JObj (proto : option json) (props : list (string * json)).

Inductive mval :=
| VPrim (p : prim)
| VArr (elems : list mval)
| VObj (proto : option json) (props : list (string * json))
| VMap (m : TSMap prim mval).

Set Elimination Schemes.

#[global] Instance json_value : JsValue json := JPrim PUndefined.
#[global] Instance mval_value : JsValue mval := VPrim PUndefined.

(** *** Plain objects *)

Section Props.
Context {A : Type}.

(** the value of own property [s] *)
Fixpoint obj_lookup (props : list (string * A)) (s : string) : option A :=
  match props with
  | [] => None
  | (s', v) :: props' =>
      if String.eqb s s' then Some v else obj_lookup props' s
  end.

(** overwrite own property [s] where it stands *)
Fixpoint obj_update (props : list (string * A)) (s : string) (v : A)
  : list (string * A) :=
  match props with
  | [] => []
  | (s', v') :: props' =>
      if String.eqb s s' then (s', v) :: props'
      else (s', v') :: obj_update props' s v
  end.

Definition has_own (props : list (string * A)) (s : string) : bool :=
  match obj_lookup props s with Some _ => true | None => false end.
End Props.

(** A property name is an array index when it is the decimal form, without
    sign or leading zero, of a number below [2^32 - 1]. *)
Definition array_index (s : string) : option N :=
  match NilZero.uint_of_string s with
  | Some u =>
      let n := N.of_uint u in
      if String.eqb (NilZero.string_of_uint (N.to_uint n)) s
         && (n <? 4294967295)%N
      then Some n else None
  | None => None
  end.

Fixpoint insert_index (n : N) (s : string) (l : list (N * string))
  : list (N * string) :=
  match l with
  | [] => [(n, s)]
  | (m, s') :: l' =>
      if (n <? m)%N then (n, s) :: l else (m, s') :: insert_index n s l'
  end.

(** [Object.keys] of a plain object with the given own names: the array
    indices in ascending order, then the other names as created. *)
Definition own_keys (names : list string) : list string :=
  let indices :=
    fold_right
      (fun s acc =>
         match array_index s with
         | Some n => insert_index n s acc
         | None => acc
         end) [] names in
  List.map snd indices
    ++ List.filter
         (fun s => match array_index s with Some _ => false | None => true end)
         names.

(** each name of [Object.keys] with the property read under it *)
Definition own_entries {A} (undef : A) (props : list (string * A))
  : list (string * A) :=
  List.map (fun s => (s, default undef (obj_lookup props s)))
    (own_keys (List.map fst props)).

(** Where a lookup along the prototype chain ends: on [Object.prototype],
    at an own data property of an object on the way, or nowhere, the chain
    ending in [null]. *)
Inductive found := Builtin | Data | Missing.

Definition is_builtin (f : found) : bool :=
  match f with Builtin => true | _ => false end.

(** The lookup of name [s] from prototype [p] on; meant for
    [hasOwnProperty] and [__proto__], which [Object.prototype] defines and
    arrays do not redefine. *)
Fixpoint proto_find (s : string) (p : json) : found :=
  match p with
  | JPrim _ => Missing
  | JArr _ => Builtin
  | JObj proto props =>
      if has_own props s then Data
      else match proto with
           | None => Builtin
           | Some p' => proto_find s p'
           end
  end.

Definition inherited (s : string) (proto : option json) : found :=
  match proto with
  | None => Builtin
  | Some p => proto_find s p
  end.

(** [obj[s] = v] on a plain object.  An own property is overwritten.
    Otherwise [__proto__] reaches the setter of [Object.prototype], when the
    object inherits it: an object or [null] becomes the prototype, anything
    else is ignored, and no own property appears.  Every other name becomes
    a new own property. *)
Definition obj_set (o : option json * list (string * json)) (s : string)
    (v : json) : option json * list (string * json) :=
  let '(proto, props) := o in
  if has_own props s then (proto, obj_update props s v)
  else if String.eqb s "__proto__" && is_builtin (inherited "__proto__" proto)
  then
    match v with
    | JArr _ | JObj _ _ | JPrim PNull => (Some v, props)
    | JPrim _ => (proto, props)
    end
  else (proto, props ++ [(s, v)]).

(** *** toJSON *)

(** the loop of [toJSON] over keys and values already unwrapped *)
Definition toJSON_loop (ks : list prim) (read : prim -> json)
  : option json * list (string * json) :=
  fold_left (fun obj k => obj_set obj (String_ k) (read k)) ks (None, []).

Fixpoint getValue (value : mval) : json :=
  match value with
  | VMap m =>
      let unwrapped := mk (_keys m) (List.map getValue (_values m)) (length m) in
      let '(proto, props) := toJSON_loop (keys unwrapped) (get unwrapped) in
      JObj proto props
  | VArr elems => JArr (List.map getValue elems)
  | VPrim p => JPrim p
  | VObj proto props => JObj proto props
  end.

(** [toJSON()], as the source has it: [obj[String(k)] = getValue(t.get(k))]
    for each key.  [getValue_VMap] in Part II ties the knot. *)
Definition toJSON (t : TSMap prim mval) : json :=
  let '(proto, props) :=
    toJSON_loop (keys t) (fun k => getValue (get t k)) in
  JObj proto props.

(** *** fromJSON *)

(** a value stored as it is *)
Fixpoint raw (value : json) : mval :=
  match value with
  | JPrim p => VPrim p
  | JArr elems => VArr (List.map raw elems)
  | JObj proto props => VObj proto props
  end.

(** [value !== null && typeof value === 'object'] *)
Definition is_object (value : json) : bool :=
  match value with
  | JPrim _ => false
  | JArr _ | JObj _ _ => true
  end.

(** [String(i)] for an index *)
Definition index_name (i : nat) : string := String_ (PNum (Z.of_nat i)).

(** The own enumerable properties in the order of [Object.keys], each with
    its value; [None] when [Object.keys] throws, on [null] and
    [undefined].  A string has its characters, other primitives nothing. *)
Definition own_properties (o : json) : option (list (string * json)) :=
  match o with
  | JPrim PUndefined | JPrim PNull => None
  | JPrim (PStr s) =>
      Some (imap (fun i c => (index_name i, JPrim (PStr (String c EmptyString))))
              (list_ascii_of_string s))
  | JPrim _ => Some []
  | JArr elems => Some (imap (fun i v => (index_name i, v)) elems)
  | JObj _ props => Some (own_entries (JPrim PUndefined) props)
  end.

(** Whether [jsonObject.hasOwnProperty] is the method of
    [Object.prototype].  An own property of that name hides it, and no
    value of the model can be called. *)
Definition hasOwnProperty_callable (o : json) : bool :=
  match o with
  | JObj proto props =>
      negb (has_own props "hasOwnProperty")
      && is_builtin (inherited "hasOwnProperty" proto)
  | _ => true
  end.

(** The body of the loop of [fromJSON] over properties whose values are
    already converted; [None] is a thrown [TypeError]. *)
Definition set_all (callable : bool) (t : TSMap prim mval)
    (converted : list (string * option mval)) : option (TSMap prim mval) :=
  fold_left
    (fun ot pv =>
       match ot with
       | None => None
       | Some t =>
           if callable then
             match snd pv with
             | Some v => Some (set t (PStr (fst pv)) v)
             | None => None
             end
           else None
       end)
    converted (Some t).

(** [new TSMap().fromJSON(value, true)] as a value, for the call that
    [setProperty] makes on an object when [convertObjs] holds; the
    recursion of the pair [setProperty]/[fromJSON] runs here, on the
    structure of the data ([convert_unfold] in Part II). *)
Fixpoint convert (value : json) : option mval :=
  match value with
  | JPrim p => Some (VPrim p)
  | JArr elems =>
      VMap <$> set_all true empty
        (imap (fun i c => (index_name i, c)) (List.map convert elems))
  | JObj proto props =>
      let converted :=
        (fix go (l : list (string * json)) : list (string * option mval) :=
           match l with
           | [] => []
           | (s, v) :: l' => (s, convert v) :: go l'
           end) props in
      VMap <$> set_all (hasOwnProperty_callable value) empty
        (own_entries (Some (VPrim PUndefined)) converted)
  end.

Definition setProperty (convertObjs : bool) (value : json) : option mval :=
  if is_object value && convertObjs then convert value
  else Some (raw value).

(** [fromJSON(jsonObject, convertObjs)]; [None] is a thrown [TypeError]. *)
Definition fromJSON (t : TSMap prim mval) (jsonObject : json)
    (convertObjs : bool) : option (TSMap prim mval) :=
  match own_properties jsonObject with
  | None => None
  | Some properties =>
      set_all (hasOwnProperty_callable jsonObject) t
        (List.map (fun pv => (fst pv, setProperty convertObjs (snd pv)))
           properties)
  end.

(** *** deepGet over these values

    [undefined] and [null] are absent and the maps are the [VMap]; what
    [obj[k]] answers on a value that is no map is the language's and stays
    a parameter. *)
Definition is_absent (v : mval) : bool :=
  match v with
  | VPrim PUndefined | VPrim PNull => true
  | _ => false
  end.

Definition mval_nesting (property : mval -> prim -> mval)
  : Nesting prim mval :=
  {| null := VPrim PNull;
     absent := is_absent;
     instanceof_TSMap := fun v => match v with VMap m => Some m | _ => None end;
     TSMap.property := property |}.
End Json.

(** ** Maps as objects in a store

    Arrays and maps are objects: a value of the program is a primitive or a
    reference, and two references to one object see each other's writes.
    [clone] is about exactly that, so it is embedded over a store.  A method
    called through a reference that holds no map is [None]. *)

Module Heap.

Definition loc := nat.

Inductive hval :=
| HPrim (p : prim)
| HRef (l : loc).

#[global] Instance hval_value : JsValue hval := HPrim PUndefined.

Inductive hobj :=
| HMap (m : TSMap.TSMap prim hval)
| HArr (elems : list hval).

Local Abbreviation heap := (gmap loc hobj).

(** a new object, at an address not in use *)
Definition alloc (h : heap) (o : hobj) : heap * loc :=
  let l := fresh (dom h) in (<[l := o]> h, l).

Definition get (h : heap) (this : loc) (key : prim) : option hval :=
  match h !! this with
  | Some (HMap m) => Some (TSMap.get m key)
  | _ => None
  end.

Definition set (h : heap) (this : loc) (key : prim) (value : hval)
  : option heap :=
  match h !! this with
  | Some (HMap m) => Some (<[this := HMap (TSMap.set m key value)]> h)
  | _ => None
  end.

(** [entries()] builds its arrays anew; [clone] hands them to the
    constructor, which reads them and keeps none, so they are passed here as
    a list of pairs. *)
Definition entries (h : heap) (this : loc) : option (list (prim * hval)) :=
  match h !! this with
  | Some (HMap m) => Some (TSMap.entries m)
  | _ => None
  end.

(** [new TSMap(inputMap)]: the two arrays of the new map are its own. *)
Definition new (h : heap) (inputMap : option (list (prim * hval)))
  : heap * loc :=
  alloc h (HMap (TSMap.new inputMap)).

(** [clone()]: [new TSMap(this.entries())] *)
Definition clone (h : heap) (this : loc) : option (heap * loc) :=
  match entries h this with
  | Some es => Some (new h (Some es))
  | None => None
  end.
End Heap.

(** ** The vocabulary of the specification *)

Section Vocabulary.
Context {K V : Type} `{EqDecision K} `{JsValue V}.
Import TSMap.

(** I1: the two arrays and [length] agree. *)
Definition I1 (t : TSMap K V) : Prop :=
  List.length (_keys t) = List.length (_values t)
  /\ length t = List.length (_keys t).

(** I2: no key occurs twice. *)
Definition I2 (t : TSMap K V) : Prop := NoDup (_keys t).

(** A call of [set], [delete] or [clear], and a sequence of them run on
    a new map. *)
Inductive call :=
| CallSet (key : K) (value : V)
| CallDelete (key : K)
| CallClear.

Definition perform (t : TSMap K V) (c : call) : TSMap K V :=
  match c with
  | CallSet key value => set t key value
  | CallDelete key => fst (delete t key)
  | CallClear => clear t
  end.

Definition run (cs : list call) : TSMap K V := fold_left perform cs empty.

(** [a < b] on keys, as a relation *)
Definition key_lt `{SortKey K} (a b : K) : Prop := js_lt a b = true.

(** A sequence of calls [sortedSet(key, value)] on a new map. *)
Definition sortedSet_all `{SortKey K} (kvs : list (K * V)) : TSMap K V :=
  fold_left (fun t kv => sortedSet t (fst kv) (snd kv) None None) kvs empty.
End Vocabulary.
Arguments call : clear implicits.

(** The maps that a round trip through JSON gives back.  A key has to be a
    string, as every property name is one; an array index would be moved to
    the front by [Object.keys], [__proto__] would reach the setter, and
    [hasOwnProperty] would hide the method that [fromJSON] calls.  The map
    itself has I1 and I2, and [value_ok] holds of each value. *)
Definition plain_key (k : prim) : bool :=
  match k with
  | PStr s =>
      match Json.array_index s with Some _ => false | None => true end
      && negb (String.eqb s "__proto__")
      && negb (String.eqb s "hasOwnProperty")
  | _ => false
  end.




(** ** Further vocabulary: what a sequence of [set] leaves, what [filter]
    keeps, and the JSON objects that [toJSON] gives back *)

Section MoreVocabulary.
Context {K V : Type} `{EqDecision K}.

(** the keys of a list in the order of their first occurrence *)
Fixpoint first_occurrences (ks : list K) : list K :=
  match ks with
  | [] => []
  | k :: ks' =>
      k :: List.filter (fun k' => negb (bool_decide (k' = k)))
             (first_occurrences ks')
  end.

(** the value that the last pair with key [k] carries *)
Fixpoint last_binding (kvs : list (K * V)) (k : K) : option V :=
  match kvs with
  | [] => None
  | (k', v) :: kvs' =>
      match last_binding kvs' k with
      | Some v' => Some v'
      | None => if decide (k = k') then Some v else None
      end
  end.

(** the entries, numbered by [number], for which a callback does not
    answer [false]; [kept] numbers them from [0] *)
Definition kept_from (number : nat -> nat) (callbackfn : V -> K -> Z -> bool)
    (entries : list (K * V)) : list (K * V) :=
  omap (fun ikv : nat * (K * V) =>
          if callbackfn (snd (snd ikv)) (fst (snd ikv)) (Z.of_nat (fst ikv))
          then Some (snd ikv) else None)
    (imap (fun i kv => (number i, kv)) entries).

Definition kept (callbackfn : V -> K -> Z -> bool) (entries : list (K * V))
  : list (K * V) :=
  kept_from id callbackfn entries.
End MoreVocabulary.

(** A name that [toJSON] and [fromJSON] carry over unchanged, and the JSON
    objects made of such names: own names pairwise distinct, the prototype
    that of [{}], the values primitives or such objects again. *)
Definition plain_name (s : string) : bool := plain_key (PStr s).

Definition plain_names (props : list (string * Json.json)) : bool :=
  forallb plain_name (List.map fst props)
  && bool_decide (NoDup (List.map fst props)).

Fixpoint plain_json (j : Json.json) : bool :=
  match j with
  | Json.JPrim _ => true
  | Json.JArr _ => false
  | Json.JObj None props =>
      forallb plain_name (List.map fst props)
      && bool_decide (NoDup (List.map fst props))
      && (fix all (l : list (string * Json.json)) : bool :=
            match l with
            | [] => true
            | (_, v) :: l' => plain_json v && all l'
            end) props
  | Json.JObj (Some _) _ => false
  end.

(** The earlier class: the three arrays in step, and what its [filter]
    leaves.  After an entry that it removes, that [filter] keeps the next
    entry without asking the callback. *)
Definition in_step {K V : Type} (t : tsMap.tsMap K V) : Prop :=
  tsMap._items t = zip (tsMap._keys t) (tsMap._values t)
  /\ List.length (tsMap._keys t) = List.length (tsMap._values t)
  /\ tsMap.length t = List.length (tsMap._items t).

(** the map of the earlier class that holds the given entries *)
Definition of_entries {K V : Type} (entries : list (K * V)) : tsMap.tsMap K V :=
  tsMap.mk entries entries.*1 entries.*2 (List.length entries).

Fixpoint kept_live {K V : Type} (callbackfn : V -> K -> bool)
    (entries : list (K * V)) : list (K * V) :=
  match entries with
  | [] => []
  | (k, v) :: rest =>
      if callbackfn v k then (k, v) :: kept_live callbackfn rest
      else
        match rest with
        | [] => []
        | next :: rest' => next :: kept_live callbackfn rest'
        end
  end.

Inductive call_old (K V : Type) :=
| OldSet (key : K) (value : V)
| OldDelete (key : K)
| OldClear.
Arguments OldSet {K V}.
Arguments OldDelete {K V}.
Arguments OldClear {K V}.

Definition perform_old {K V : Type} `{EqDecision K} `{JsValue V}
    (t : tsMap.tsMap K V) (c : call_old K V) : option (tsMap.tsMap K V) :=
  match c with
  | OldSet key value => tsMap.set t key value
  | OldDelete key => Some (fst (tsMap.delete t key))
  | OldClear => Some (tsMap.clear t)
  end.

(** a sequence of calls on a new map; [None] when one of them throws *)
Definition run_old {K V : Type} `{EqDecision K} `{JsValue V}
    (cs : list (call_old K V)) : option (tsMap.tsMap K V) :=
  fold_left (fun ot c => ot ≫= fun t => perform_old t c) cs (Some tsMap.empty).

(* ===================================================================== *)
(** * Part II: lemmas and theorems                                         *)
(* ===================================================================== *)

(** ** Arrays *)

Section ArrayFacts.
Context {A : Type}.
Import JsArray.
Implicit Types (arr : list A) (i : Z) (n : nat).

Lemma at_nat arr n : at_ arr (Z.of_nat n) = arr !! n.
Proof.
  unfold at_. destruct (Z.ltb_spec (Z.of_nat n) 0); [lia|].
  by rewrite Nat2Z.id.
Qed.

Lemma at_negative arr i : (i < 0)%Z -> at_ arr i = None.
Proof. intros Hi. unfold at_. by destruct (Z.ltb_spec i 0); [|lia]. Qed.

Lemma at_past_end arr i : (Z.of_nat (List.length arr) <= i)%Z -> at_ arr i = None.
Proof.
  intros Hi. unfold at_. destruct (Z.ltb_spec i 0); [done|].
  apply lookup_ge_None_2. lia.
Qed.

Lemma at_Some arr i x :
  at_ arr i = Some x ->
  (0 <= i < Z.of_nat (List.length arr))%Z /\ arr !! Z.to_nat i = Some x.
Proof.
  unfold at_. destruct (Z.ltb_spec i 0); [done|]. intros Hx.
  split; [|done]. apply lookup_lt_Some in Hx. lia.
Qed.

Lemma length_push arr x : List.length (push arr x) = S (List.length arr).
Proof. unfold push. rewrite length_app. simpl. lia. Qed.

(** [splice(i, 0, x)] at an index of the array, or one past it *)
Lemma splice_insert_nat arr n x :
  n <= List.length arr ->
  splice arr (Z.of_nat n) 0 [x] = take n arr ++ x :: drop n arr.
Proof.
  intros Hn. unfold splice.
  destruct (Z.ltb_spec (Z.of_nat n) 0); [lia|].
  replace (Z.to_nat (Z.min (Z.of_nat n) (Z.of_nat (List.length arr)))) with n by lia.
  f_equal. simpl. do 2 f_equal. lia.
Qed.

(** inserting one element lengthens the array by one, wherever it lands *)
Lemma length_splice_insert arr i x :
  List.length (splice arr i 0 [x]) = S (List.length arr).
Proof.
  unfold splice. rewrite !length_app, length_take, length_drop. simpl.
  destruct (Z.ltb_spec i 0); lia.
Qed.

(** [splice(i, 1)] at an index of the array *)
Lemma splice_delete_nat arr n :
  n < List.length arr ->
  splice arr (Z.of_nat n) 1 [] = take n arr ++ drop (S n) arr.
Proof.
  intros Hn. unfold splice.
  destruct (Z.ltb_spec (Z.of_nat n) 0); [lia|]. simpl.
  f_equal; f_equal; lia.
Qed.

Lemma length_splice_delete arr n :
  n < List.length arr ->
  List.length (splice arr (Z.of_nat n) 1 []) = List.length arr - 1.
Proof.
  intros Hn. rewrite splice_delete_nat by done.
  rewrite length_app, length_take, length_drop. lia.
Qed.

Lemma assign_nat undef arr n x :
  n < List.length arr -> assign undef arr (Z.of_nat n) x = <[n := x]> arr.
Proof.
  intros Hn. unfold assign.
  destruct (Z.ltb_spec (Z.of_nat n) 0); [lia|].
  destruct (Z.ltb_spec (Z.of_nat n) (Z.of_nat (List.length arr))); [|lia].
  by rewrite Nat2Z.id.
Qed.

(** after [arr[n] = x], [arr[n]] reads [x], also past the end *)
Lemma at_assign undef arr n x :
  at_ (assign undef arr (Z.of_nat n) x) (Z.of_nat n) = Some x.
Proof.
  rewrite at_nat. unfold assign.
  destruct (Z.ltb_spec (Z.of_nat n) 0); [lia|].
  destruct (Z.ltb_spec (Z.of_nat n) (Z.of_nat (List.length arr))).
  - rewrite Nat2Z.id. apply list_lookup_insert_eq. lia.
  - rewrite lookup_app_r by lia.
    rewrite lookup_app_r by (rewrite length_replicate; lia).
    rewrite length_replicate.
    replace (n - List.length arr
             - Z.to_nat (Z.of_nat n - Z.of_nat (List.length arr))) with 0 by lia.
    done.
Qed.

Context `{EqDecision A}.

Lemma indexOf_from_spec arr x i :
  (indexOf_from arr x i = -1 /\ x ∉ arr)%Z \/
  (exists n, indexOf_from arr x i = (i + Z.of_nat n)%Z /\ arr !! n = Some x
             /\ forall j, j < n -> arr !! j <> Some x).
Proof.
  revert i. induction arr as [|y arr IH]; intros i; simpl.
  - left. split; [done|]. apply not_elem_of_nil.
  - destruct (decide (x = y)) as [->|Hne].
    + right. exists 0. split; [lia|]. split; [done|]. intros j Hj. lia.
    + destruct (IH (i + 1)%Z) as [[Hm Hnot]|(n & Hn & Hx & Hfirst)].
      * left. split; [done|]. rewrite not_elem_of_cons. done.
      * right. exists (S n). split; [lia|]. split; [done|].
        intros [|j] Hj; simpl; [congruence|]. apply Hfirst. lia.
Qed.

(** [indexOf] answers an index of the array holding [x], the first such,
    or [-1] when there is none *)
Lemma indexOf_spec arr x :
  (indexOf arr x = -1 /\ x ∉ arr)%Z \/
  (exists n, indexOf arr x = Z.of_nat n /\ arr !! n = Some x
             /\ forall j, j < n -> arr !! j <> Some x).
Proof.
  unfold indexOf.
  destruct (indexOf_from_spec arr x 0) as [?|(n & Hn & ?)]; [by left|].
  right. exists n. split; [lia|done].
Qed.

Lemma indexOf_found arr x :
  (indexOf arr x >? -1)%Z = true ->
  exists n, indexOf arr x = Z.of_nat n /\ arr !! n = Some x
            /\ n < List.length arr /\ forall j, j < n -> arr !! j <> Some x.
Proof.
  intros Hi. destruct (indexOf_spec arr x) as [[Hm _]|(n & Hn & Hx & Hf)].
  - rewrite Hm in Hi. done.
  - exists n. repeat split; try done. by apply lookup_lt_Some in Hx.
Qed.

Lemma indexOf_missing arr x :
  (indexOf arr x >? -1)%Z = false -> x ∉ arr.
Proof.
  intros Hi. destruct (indexOf_spec arr x) as [[_ Hm]|(n & Hn & _)]; [done|].
  rewrite Hn, Z.gtb_ltb in Hi. apply Z.ltb_ge in Hi. lia.
Qed.

Lemma indexOf_elem arr x : x ∈ arr -> (indexOf arr x >? -1)%Z = true.
Proof.
  intros Hx. destruct (indexOf arr x >? -1)%Z eqn:Hi; [done|].
  by apply indexOf_missing in Hi.
Qed.

Lemma indexOf_not_elem arr x : x ∉ arr -> (indexOf arr x >? -1)%Z = false.
Proof.
  intros Hx. destruct (indexOf arr x >? -1)%Z eqn:Hi; [|done].
  apply indexOf_found in Hi as (n & _ & Hn & _).
  destruct Hx. by eapply list_elem_of_lookup_2.
Qed.

(** in an array without repetition the index of a slot is that slot *)
Lemma indexOf_lookup_NoDup arr x n :
  NoDup arr -> arr !! n = Some x -> indexOf arr x = Z.of_nat n.
Proof.
  intros Hnd Hx.
  destruct (indexOf_spec arr x) as [[_ Hm]|(n' & Hn' & Hx' & _)].
  - destruct Hm. by eapply list_elem_of_lookup_2.
  - rewrite Hn'. f_equal. by eapply NoDup_lookup.
Qed.
End ArrayFacts.

(** ** The methods on the two arrays *)

Section MapFacts.
Context {K V : Type} `{EqDecision K} `{JsValue V}.
Import JsArray TSMap.
Implicit Types (t : TSMap K V) (key : K) (value : V).

Lemma has_elem t key : has t key = true <-> key ∈ _keys t.
Proof.
  unfold has. split; [|apply indexOf_elem].
  intros Hi. apply indexOf_found in Hi as (n & _ & Hn & _).
  by eapply list_elem_of_lookup_2.
Qed.

Lemma get_missing t key : has t key = false -> get t key = undefined.
Proof. unfold has, get. by intros ->. Qed.

Lemma get_found t key n :
  indexOf (_keys t) key = Z.of_nat n ->
  get t key = default undefined (_values t !! n).
Proof.
  intros Hn. unfold get. rewrite Hn, at_nat.
  by destruct (Z.gtb_spec (Z.of_nat n) (-1)); [|lia].
Qed.

(** [set] on a key that is there touches one slot of [_values] only *)
Lemma set_found t key value :
  has t key = true ->
  set t key value
  = mk (_keys t) (assign undefined (_values t) (indexOf (_keys t) key) value)
       (length t).
Proof. unfold has, set. by intros ->. Qed.

(** [set] on a new key appends to both arrays and refreshes [length] *)
Lemma set_missing t key value :
  has t key = false ->
  set t key value
  = mk (_keys t ++ [key]) (_values t ++ [value])
       (S (List.length (_values t))).
Proof.
  unfold has, set. intros ->. unfold push.
  by rewrite length_app, Nat.add_1_r.
Qed.

Lemma set_I1 t key value : I1 t -> I1 (set t key value).
Proof.
  intros [Hkv Hlen]. destruct (has t key) eqn:Hhas.
  - rewrite set_found by done. unfold has in Hhas.
    destruct (indexOf_found _ _ Hhas) as (n & Hn & _ & Hlt & _).
    split; simpl; [|done]. rewrite Hn, assign_nat by lia.
    by rewrite length_insert.
  - rewrite set_missing by done. split; simpl.
    + rewrite !length_app. simpl. lia.
    + rewrite length_app. simpl. lia.
Qed.

Lemma delete_I1 t key : I1 t -> I1 (fst (delete t key)).
Proof.
  intros [Hkv Hlen]. unfold delete.
  destruct (indexOf (_keys t) key >? -1)%Z eqn:Hi; [|done].
  destruct (indexOf_found _ _ Hi) as (n & Hn & _ & Hlt & _).
  split; simpl; [|done].
  rewrite Hn, !length_splice_delete by lia. lia.
Qed.

Lemma clear_I1 t : I1 (clear t).
Proof. by split. Qed.

Lemma empty_I1 : I1 (empty : TSMap K V).
Proof. by split. Qed.

Lemma perform_I1 t c : I1 t -> I1 (perform t c).
Proof.
  destruct c; simpl; auto using set_I1, delete_I1, clear_I1.
Qed.

Lemma new_I1 inputMap : I1 (new inputMap : TSMap K V).
Proof.
  destruct inputMap as [es|]; simpl; [|apply empty_I1].
  generalize (empty_I1). generalize (empty : TSMap K V).
  induction es as [|e es IH]; intros t Ht; simpl; [done|].
  apply IH. by apply set_I1.
Qed.

Lemma filter_I1 t callbackfn : I1 t -> I1 (filter t callbackfn).
Proof.
  unfold filter. generalize (imap pair (_keys t)). intros l. revert t.
  induction l as [|[i v] l IH]; intros t Ht; simpl; [done|].
  apply IH. destruct (negb _); [by apply delete_I1|done].
Qed.
End MapFacts.

(** ** Reading and overwriting *)

Section GetSet.
Context {K V : Type} `{EqDecision K} `{JsValue V}.
Import JsArray TSMap.
Implicit Types (t : TSMap K V) (key : K) (value : V).

(** after [set], [get] reads the value back when the key was there *)
Lemma get_set_found t key value :
  has t key = true -> get (set t key value) key = value.
Proof.
  intros Hhas. rewrite set_found by done. unfold has in Hhas.
  destruct (indexOf_found _ _ Hhas) as (n & Hn & _).
  unfold get. simpl. rewrite Hhas, Hn. by rewrite at_assign.
Qed.

(** and when it was not, provided the two arrays were equally long *)
Lemma get_set_missing t key value :
  List.length (_keys t) = List.length (_values t) ->
  has t key = false -> get (set t key value) key = value.
Proof.
  intros Hlen Hhas. rewrite set_missing by done.
  unfold has in Hhas. apply indexOf_missing in Hhas.
  destruct (indexOf_spec (_keys t ++ [key]) key)
    as [[_ Hm]|(n & Hn & Hx & Hfirst)].
  { destruct Hm. set_solver. }
  assert (n = List.length (_keys t)) as ->.
  { destruct (decide (n < List.length (_keys t))) as [Hlt|Hge].
    - rewrite lookup_app_l in Hx by done.
      destruct Hhas. by eapply list_elem_of_lookup_2.
    - apply lookup_lt_Some in Hx. rewrite length_app in Hx. simpl in Hx. lia. }
  rewrite (get_found (mk _ _ _) key (List.length (_keys t))) by done. simpl.
  rewrite Hlen, lookup_app_r by lia. by rewrite Nat.sub_diag.
Qed.
End GetSet.

(** ** C7, C9, C6: size, overwriting, and the missing key *)

Section CoreClaims.
Context {K V : Type} `{EqDecision K} `{JsValue V}.
Import JsArray TSMap.
Implicit Types (t : TSMap K V) (key : K) (value : V).

Lemma run_from_I1 (cs : list (call K V)) t :
  I1 t -> I1 (fold_left perform cs t).
Proof.
  revert t. induction cs as [|c cs IH]; intros t Ht; simpl; [done|].
  apply IH. by apply perform_I1.
Qed.

(** C7 (P3, size consistency): after any sequence of calls of [set],
    [delete] and [clear] on a new map, [size()] is the length of [keys()]
    and of [values()]. *)
Theorem size_consistency (cs : list (call K V)) :
  size (run cs) = List.length (keys (run cs))
  /\ List.length (keys (run cs)) = List.length (values (run cs)).
Proof.
  destruct (run_from_I1 cs empty empty_I1) as [Hkv Hlen].
  unfold size, keys, values, run. by split.
Qed.

(** C9 (P2, overwrite position stability): when [key] stands at index [i],
    [set(key, v1)] followed by [set(key, v2)] leaves the array of keys as
    it was at either step, so [key] is still at [i] and [keys()] is as
    long as before the second call, and [get(key)] answers [v2]. *)
Theorem set_overwrites_in_place t key (i : Z) (v1 v2 : V) :
  indexOf (_keys t) key = i ->
  (i > -1)%Z ->
  let t1 := set t key v1 in
  let t2 := set t1 key v2 in
  _keys t1 = _keys t
  /\ _keys t2 = _keys t1
  /\ indexOf (keys t2) key = i
  /\ List.length (keys t2) = List.length (keys t1)
  /\ get t2 key = v2.
Proof.
  intros Hi Hpos t1 t2.
  assert (has t key = true) as Hhas.
  { unfold has. rewrite Hi. by apply Z.gtb_lt; lia. }
  assert (_keys t1 = _keys t) as Hk1.
  { unfold t1. by rewrite set_found. }
  assert (has t1 key = true) as Hhas1.
  { unfold has. by rewrite Hk1. }
  assert (_keys t2 = _keys t1) as Hk2.
  { unfold t2. by rewrite set_found. }
  repeat split; try done.
  - unfold keys. by rewrite Hk2, Hk1.
  - unfold keys. by rewrite Hk2.
  - unfold t2. by apply get_set_found.
Qed.

(** C6, amended, for every state of the map, also one that [sortedSet]
    has left with [_values] longer than [_keys] or with a stale [length].
    When [has(key)] holds, [get(key)] answers what the slot of [_values]
    under the index of [key] holds ([undefined] where [_values] has no
    such slot, the stored value whenever [_values] is at least as long as
    [_keys]); when [has(key)] fails, [get(key)] answers [undefined].
    [undefined] can be stored like any value: after [set(key, undefined)]
    on a key that is there, [has(key)] still holds and [get(key)] answers
    [undefined]; on a key that is not there, with the two arrays equally
    long, the key is put into [keys()] and [get(key)] answers
    [undefined].  A key is there when [has(key)] says so: this is the test
    of the source, [indexOf(key) > -1], which a [NaN] key never passes, so
    no clause promises [has] of a [NaN] key. *)
Theorem get_answers_slot_or_undefined t key :
  (has t key = true ->
   exists n, indexOf (_keys t) key = Z.of_nat n
             /\ _keys t !! n = Some key
             /\ get t key = default undefined (_values t !! n)
             /\ (List.length (_keys t) <= List.length (_values t) ->
                 _values t !! n = Some (get t key)))
  /\ (has t key = false -> get t key = undefined)
  /\ (has t key = true ->
      has (set t key undefined) key = true
      /\ get (set t key undefined) key = undefined)
  /\ (has t key = false ->
      List.length (_keys t) = List.length (_values t) ->
      key ∈ keys (set t key undefined)
      /\ get (set t key undefined) key = undefined).
Proof.
  split; [|split; [apply get_missing|split]].
  - intros Hhas. unfold has in Hhas.
    destruct (indexOf_found _ _ Hhas) as (n & Hn & Hx & Hlt & _).
    exists n. split; [done|]. split; [done|].
    rewrite (get_found _ _ _ Hn). split; [done|]. intros Hle.
    destruct (lookup_lt_is_Some_2 (_values t) n) as [v Hv]; [lia|].
    by rewrite Hv.
  - intros Hhas. split; [|by apply get_set_found].
    apply has_elem. rewrite set_found by done. simpl. by apply has_elem.
  - intros Hhas Hlen. split; [|by apply get_set_missing].
    unfold keys. rewrite set_missing by done. simpl.
    apply elem_of_app. right. by apply list_elem_of_singleton.
Qed.
End CoreClaims.

(** C6 as stated fails: after [set("a", undefined)], [get] answers
    [undefined] both for ["a"], which is there, and for ["b"], which is
    not, so the answer of [get] does not tell the two apart. *)
Lemma get_undefined_is_ambiguous :
  let t : TSMap.TSMap prim prim :=
    TSMap.set TSMap.empty (PStr "a") PUndefined in
  TSMap.has t (PStr "a") = true
  /\ TSMap.has t (PStr "b") = false
  /\ TSMap.get t (PStr "a") = undefined
  /\ TSMap.get t (PStr "b") = undefined.
Proof. by vm_compute. Qed.

Lemma set_overwrites_in_place_witness :
  let t : TSMap.TSMap prim prim :=
    TSMap.set (TSMap.set TSMap.empty (PStr "a") (PNum 1)) (PStr "b") (PNum 2) in
  let t2 := TSMap.set (TSMap.set t (PStr "b") (PNum 7)) (PStr "b") (PNum 8) in
  JsArray.indexOf (TSMap.keys t2) (PStr "b") = 1%Z
  /\ TSMap.get t2 (PStr "b") = PNum 8.
Proof.
  intros t t2.
  destruct (set_overwrites_in_place t (PStr "b") 1%Z (PNum 7) (PNum 8))
    as (_ & _ & Hi & _ & Hg); [reflexivity|lia|].
  split; [exact Hi|exact Hg].
Defined.

Lemma get_answers_slot_or_undefined_witness :
  let t : TSMap.TSMap Z prim :=
    TSMap.sortedSet
      (TSMap.sortedSet TSMap.empty 5%Z (PStr "x") None None)
      5%Z (PStr "y") None None in
  t = TSMap.mk [5%Z] [PStr "y"; PStr "x"] 0
  /\ TSMap.get t 5%Z = PStr "y"
  /\ TSMap.get t 7%Z = undefined
  /\ TSMap.has (TSMap.set t 5%Z undefined) 5%Z = true
  /\ TSMap.get (TSMap.set t 5%Z undefined) 5%Z = undefined.
Proof.
  intros t. split; [reflexivity|].
  destruct (get_answers_slot_or_undefined t 5%Z) as (Hthere & _ & Hstore & _).
  destruct (get_answers_slot_or_undefined t 7%Z) as (_ & Hmiss & _ & _).
  split; [|split; [apply Hmiss; reflexivity|apply Hstore; reflexivity]].
  destruct (Hthere eq_refl) as (n & Hn & _ & Hget & _).
  rewrite Hget. change (0%Z = Z.of_nat n) in Hn.
  replace n with 0 by lia. reflexivity.
Defined.

(** The last clause needs the two arrays equally long.  After
    [sortedSet(5, "x")] and [sortedSet(5, "y")] on a new map [_values] is
    one longer than [_keys]; [set(7, undefined)] then pushes onto both, and
    [get(7)] reads the slot under the index of [7] in [_keys], which holds
    the stale ["x"]. *)
Example set_undefined_reads_stale_slot :
  let t : TSMap.TSMap Z prim :=
    TSMap.sortedSet
      (TSMap.sortedSet TSMap.empty 5%Z (PStr "x") None None)
      5%Z (PStr "y") None None in
  TSMap.has t 7%Z = false
  /\ TSMap.set t 7%Z undefined
     = TSMap.mk [5%Z; 7%Z] [PStr "y"; PStr "x"; PUndefined] 3
  /\ TSMap.get (TSMap.set t 7%Z undefined) 7%Z = PStr "x".
Proof. repeat split. Qed.

(** ** sortedSet: the recursion, [length], and a match at a bound *)

Section SortedSetFacts.
Context {K V : Type} `{EqDecision K} `{JsValue V} `{SortKey K}.
Import JsArray TSMap.
Implicit Types (t : TSMap K V) (key : K) (value : V) (start : Z).

(** Fuel beyond the width of the range changes nothing. *)
Lemma sortedSet_fuel_enough f1 f2 t key value start (end_ : Z) :
  Z.to_nat (end_ - start) <= f1 ->
  Z.to_nat (end_ - start) <= f2 ->
  sortedSet_fuel f1 t key value start end_
  = sortedSet_fuel f2 t key value start end_.
Proof.
  revert f2 start end_.
  induction f1 as [|f1 IH]; intros f2 start end_ H1 H2.
  - destruct f2 as [|f2]; [done|]. simpl.
    repeat (case_match; try done).
    all: match goal with
         | Hge : (_ >=? _)%Z = false |- _ =>
             rewrite Z.geb_leb in Hge; apply Z.leb_gt in Hge; lia
         end.
  - destruct f2 as [|f2]; simpl.
    + repeat (case_match; try done).
      all: match goal with
           | Hge : (_ >=? _)%Z = false |- _ =>
               rewrite Z.geb_leb in Hge; apply Z.leb_gt in Hge; lia
           end.
    + repeat (case_match; try done).
      all: match goal with
           | Hge : (_ >=? _)%Z = false |- _ =>
               rewrite Z.geb_leb in Hge; apply Z.leb_gt in Hge
           end.
      all: apply IH.
      all: pose proof (Z.div_pos (end_ - start) 2);
           pose proof (Z.mul_div_le (end_ - start) 2);
           lia.
Qed.

(** [sortedSet_at] obeys the equation of the source: the five early
    returns, then the midpoint and one recursive call. *)
Lemma sortedSet_at_unfold t key value start (end_ : Z) :
  sortedSet_at t key value start end_ =
    if Nat.eqb (List.length (_keys t)) 0 then
      mk (push (_keys t) key) (push (_values t) value) (length t)
    else if eq_slot key (_keys t) start then
      mk (_keys t) (splice (_values t) start 0 [value]) (length t)
    else if eq_slot key (_keys t) end_ then
      mk (_keys t) (splice (_values t) end_ 0 [value]) (length t)
    else if gt_slot key (_keys t) end_ then
      mk (splice (_keys t) (end_ + 1) 0 [key])
         (splice (_values t) (end_ + 1) 0 [value]) (length t)
    else if lt_slot key (_keys t) start then
      mk (splice (_keys t) start 0 [key])
         (splice (_values t) start 0 [value]) (length t)
    else if (start >=? end_)%Z then t
    else
      let m := (start + (end_ - start) / 2)%Z in
      if lt_slot key (_keys t) m then
        sortedSet_at t key value start (m - 1)
      else if gt_slot key (_keys t) m then
        sortedSet_at t key value (m + 1) end_
      else t.
Proof.
  unfold sortedSet_at.
  destruct (Z.to_nat (end_ - start)) as [|f] eqn:Hf; simpl.
  - repeat (case_match; try done).
    all: match goal with
         | Hge : (_ >=? _)%Z = false |- _ =>
             rewrite Z.geb_leb in Hge; apply Z.leb_gt in Hge; lia
         end.
  - repeat (case_match; try done).
    all: match goal with
         | Hge : (_ >=? _)%Z = false |- _ =>
             rewrite Z.geb_leb in Hge; apply Z.leb_gt in Hge
         end.
    all: apply sortedSet_fuel_enough.
    all: pose proof (Z.div_pos (end_ - start) 2);
         pose proof (Z.mul_div_le (end_ - start) 2);
         lia.
Qed.

Lemma sortedSet_fuel_length fuel t key value start (end_ : Z) :
  length (sortedSet_fuel fuel t key value start end_) = length t.
Proof.
  revert start end_. induction fuel as [|fuel IH]; intros start end_; simpl;
    repeat (case_match; try done); apply IH.
Qed.

(** C10: no branch of [sortedSet] writes [length]; after the call
    [length], and with it [size()], is what it was before. *)
Theorem sortedSet_keeps_length t key value (startVal endVal : option Z) :
  length (sortedSet t key value startVal endVal) = length t
  /\ size (sortedSet t key value startVal endVal) = size t.
Proof.
  unfold size, sortedSet, sortedSet_at.
  by rewrite sortedSet_fuel_length.
Qed.

(** C3: on a map that is not empty, when [key == keys[start]] the call
    splices [value] into [_values] at [start] and returns; when that test
    fails and [key == keys[end]], it splices at [end].  Either way
    [_keys] is untouched and [_values] is one longer. *)
Theorem sortedSet_match_at_bound t key value (startVal endVal : option Z) :
  _keys t <> [] ->
  let start := default 0%Z startVal in
  let end_ := default (Z.of_nat (List.length (_keys t)) - 1)%Z endVal in
  let t' := sortedSet t key value startVal endVal in
  (eq_slot key (_keys t) start = true ->
   _values t' = splice (_values t) start 0 [value])
  /\ (eq_slot key (_keys t) start = false ->
      eq_slot key (_keys t) end_ = true ->
      _values t' = splice (_values t) end_ 0 [value])
  /\ (eq_slot key (_keys t) start = true
      \/ eq_slot key (_keys t) end_ = true ->
      _keys t' = _keys t
      /\ List.length (_values t') = S (List.length (_values t))
      /\ List.length (_keys t') = List.length (_keys t)).
Proof.
  intros Hne start end_ t'.
  assert (Nat.eqb (List.length (_keys t)) 0 = false) as Hlen.
  { apply Nat.eqb_neq. by destruct (_keys t). }
  assert (t' = if eq_slot key (_keys t) start then
                 mk (_keys t) (splice (_values t) start 0 [value]) (length t)
               else if eq_slot key (_keys t) end_ then
                 mk (_keys t) (splice (_values t) end_ 0 [value]) (length t)
               else t') as Ht'.
  { unfold t', sortedSet. fold start end_.
    rewrite sortedSet_at_unfold, Hlen. by repeat case_match. }
  split; [|split].
  - intros Hs. rewrite Ht', Hs. done.
  - intros Hs He. rewrite Ht', Hs, He. done.
  - intros Hor. rewrite Ht'.
    destruct (eq_slot key (_keys t) start); simpl.
    + by rewrite length_splice_insert.
    + destruct Hor as [?|He]; [done|]. rewrite He. simpl.
      by rewrite length_splice_insert.
Qed.
End SortedSetFacts.

Lemma sortedSet_match_at_bound_witness :
  let t : TSMap.TSMap Z prim := TSMap.mk [1; 5]%Z [PStr "y"; PStr "x"] 2 in
  let t' := TSMap.sortedSet t 1%Z (PStr "w") None None in
  TSMap._keys t' = [1; 5]%Z
  /\ TSMap._values t' = [PStr "w"; PStr "y"; PStr "x"].
Proof.
  intros t t'.
  destruct (sortedSet_match_at_bound t 1%Z (PStr "w") None None)
    as (Hv & _ & Hk); [discriminate|].
  split.
  - apply Hk. left. reflexivity.
  - apply Hv. reflexivity.
Defined.

(** C1 fails on [sortedSet].  On a new map [sortedSet(5, "x")] appends to
    both arrays and leaves [length] at [0]: [keys()] has one element while
    [size()] answers [0].  A second call with the same key lengthens
    [_values] alone. *)
Theorem sortedSet_breaks_I1 :
  let t1 : TSMap.TSMap Z prim :=
    TSMap.sortedSet TSMap.empty 5%Z (PStr "x") None None in
  let t2 := TSMap.sortedSet t1 5%Z (PStr "y") None None in
  t1 = TSMap.mk [5%Z] [PStr "x"] 0
  /\ TSMap.size t1 <> List.length (TSMap.keys t1)
  /\ t2 = TSMap.mk [5%Z] [PStr "y"; PStr "x"] 0
  /\ List.length (TSMap.keys t2) <> List.length (TSMap.values t2).
Proof. vm_compute. repeat split; discriminate. Qed.

(** ** C2: sortedSet keeps the keys in ascending order *)

Section SortedLists.
Context {A : Type} (R : relation A).

Lemma StronglySorted_lookup (l : list A) :
  StronglySorted R l <->
  forall i j a b, i < j -> l !! i = Some a -> l !! j = Some b -> R a b.
Proof.
  induction l as [|x l IH].
  - split; [intros _ i j a b _ Hi; by rewrite lookup_nil in Hi|constructor].
  - rewrite StronglySorted_cons, IH, Forall_forall. split.
    + intros [Hx Hl] [|i] [|j] a b Hij Ha Hb; simplify_eq/=; try lia.
      * apply Hx. by eapply list_elem_of_lookup_2.
      * eapply (Hl i j); [lia|done..].
    + intros Hall. split.
      * intros y Hy. apply list_elem_of_lookup_1 in Hy as [j Hj].
        by apply (Hall 0 (S j) x y); [lia|..].
      * intros i j a b Hij Ha Hb. by apply (Hall (S i) (S j)); [lia|..].
Qed.

(** putting [x] between the elements below it and those above it *)
Lemma StronglySorted_insert (l : list A) (n : nat) (x : A) :
  StronglySorted R l ->
  (forall j a, j < n -> l !! j = Some a -> R a x) ->
  (forall j b, n <= j -> l !! j = Some b -> R x b) ->
  StronglySorted R (take n l ++ x :: drop n l).
Proof.
  intros Hl Hlow Hhigh.
  rewrite <- (take_drop n l) in Hl at 1.
  apply StronglySorted_app in Hl as (Hcross & Htake & Hdrop).
  apply StronglySorted_app_2; [|done|].
  - intros a b Ha Hb. apply elem_of_cons in Hb as [->|Hb]; [|by apply Hcross].
    apply list_elem_of_lookup_1 in Ha as [j Hj].
    apply lookup_take_Some in Hj as [Hj Hlt]. by eapply Hlow.
  - apply StronglySorted_cons. split; [|done].
    apply Forall_forall. intros b Hb.
    apply list_elem_of_lookup_1 in Hb as [j Hj].
    rewrite lookup_drop in Hj. eapply Hhigh; [|done]. lia.
Qed.
End SortedLists.

Section SortedKeys.
Context {K V : Type} `{EqDecision K} `{JsValue V} `{TotalSortKey K}.
Import JsArray TSMap.
Implicit Types (t : TSMap K V) (key : K) (value : V) (ks : list K).

Lemma key_lt_trans a b c : key_lt a b -> key_lt b c -> key_lt a c.
Proof. apply js_lt_trans. Qed.

Lemma key_lt_irrefl a : ~ key_lt a a.
Proof. unfold key_lt. by rewrite js_lt_irrefl. Qed.

Lemma sorted_le ks i j a b :
  StronglySorted key_lt ks -> i <= j ->
  ks !! i = Some a -> ks !! j = Some b -> a = b \/ key_lt a b.
Proof.
  intros Hs Hij Ha Hb. destruct (decide (i = j)) as [->|Hne].
  - left. congruence.
  - right. eapply StronglySorted_lookup; [done| |done..]. lia.
Qed.

Lemma eq_slot_fresh key ks (i : Z) : key ∉ ks -> eq_slot key ks i = false.
Proof.
  intros Hk. unfold eq_slot. destruct (at_ ks i) as [k|] eqn:Hi.
  - destruct (loose_eq key k) eqn:Heq; [|done].
    apply loose_eq_spec in Heq as ->.
    apply at_Some in Hi as [_ Hi]. destruct Hk.
    by eapply list_elem_of_lookup_2.
  - apply nullish_never.
Qed.

(** The search, for a key that is not there yet.  The bounds [start] and
    [end_] are indices of the array; every key left of [start] is below
    [key] and every key right of [end_] is above it.  Then [key] lands at
    an index [n] that splits the keys into those below and those above. *)
Lemma sortedSet_at_inserts (width : nat) t key value (start end_ : Z) :
  StronglySorted key_lt (_keys t) ->
  key ∉ _keys t ->
  (0 <= start <= end_)%Z ->
  (end_ < Z.of_nat (List.length (_keys t)))%Z ->
  Z.to_nat (end_ - start) <= width ->
  (forall j a, (Z.of_nat j < start)%Z -> _keys t !! j = Some a -> key_lt a key) ->
  (forall j b, (end_ < Z.of_nat j)%Z -> _keys t !! j = Some b -> key_lt key b) ->
  exists n,
    _keys (sortedSet_at t key value start end_)
    = take n (_keys t) ++ key :: drop n (_keys t)
    /\ (forall j a, j < n -> _keys t !! j = Some a -> key_lt a key)
    /\ (forall j b, n <= j -> _keys t !! j = Some b -> key_lt key b).
Proof.
  intros Hsorted Hfresh. revert start end_.
  induction width as [|width IH]; intros start end_ Hse Hend Hwidth Hlow Hhigh.
  all: rewrite sortedSet_at_unfold.
  all: destruct (Nat.eqb_spec (List.length (_keys t)) 0) as [|_]; [lia|].
  all: rewrite !eq_slot_fresh by done.
  all: destruct (lookup_lt_is_Some_2 (_keys t) (Z.to_nat start)) as [ks Hks];
    [lia|].
  all: destruct (lookup_lt_is_Some_2 (_keys t) (Z.to_nat end_)) as [ke Hke];
    [lia|].
  all: assert (at_ (_keys t) start = Some ks) as Hats
    by (rewrite <- (Z2Nat.id start) by lia; by rewrite at_nat).
  all: assert (at_ (_keys t) end_ = Some ke) as Hate
    by (rewrite <- (Z2Nat.id end_) by lia; by rewrite at_nat).
  all: unfold gt_slot at 1; rewrite Hate; unfold js_gt.
  all: destruct (js_lt ke key) eqn:Hgt.
  1,3: exists (S (Z.to_nat end_)); simpl; split; [|split].
  1,4: replace (end_ + 1)%Z with (Z.of_nat (S (Z.to_nat end_))) by lia;
    rewrite splice_insert_nat by lia; done.
  1,3: intros j a Hj Ha;
    destruct (sorted_le (_keys t) j (Z.to_nat end_) a ke) as [->|Hlt];
      [done|lia|done|done|done|];
    by eapply key_lt_trans.
  1,2: intros j b Hj Hb; eapply Hhigh; [|done]; lia.
  all: unfold lt_slot at 1; rewrite Hats.
  all: destruct (js_lt key ks) eqn:Hlt.
  1,3: exists (Z.to_nat start); simpl; split; [|split].
  1,4: rewrite <- (Z2Nat.id start) at 1 by lia;
    rewrite splice_insert_nat by lia; done.
  1,3: intros j a Hj Ha; eapply Hlow; [|done]; lia.
  1,2: intros j b Hj Hb;
    destruct (sorted_le (_keys t) (Z.to_nat start) j ks b) as [<-|Hlt'];
      [done|lia|done|done|done|];
    by eapply key_lt_trans.
  (* neither bound takes the key: it lies strictly between them *)
  all: assert (key_lt ks key) as Hks_lt.
  1,3: destruct (js_lt_total ks key) as [?|[->|?]]; [done| |congruence];
    destruct Hfresh; by eapply list_elem_of_lookup_2.
  all: assert (key_lt key ke) as Hke_lt.
  1,3: destruct (js_lt_total key ke) as [?|[->|?]]; [done| |congruence];
    destruct Hfresh; by eapply list_elem_of_lookup_2.
  all: assert (start < end_)%Z as Hlt_se.
  1,3: destruct (decide (start = end_)) as [Heq|?]; [|lia];
    subst end_; simplify_eq;
    destruct (key_lt_irrefl key); by eapply key_lt_trans.
  - lia.
  - destruct (Z.geb_spec start end_) as [?|_]; [lia|]. simpl.
    set (m := (start + (end_ - start) / 2)%Z).
    assert (start <= m < end_)%Z as Hm.
    { unfold m. pose proof (Z.div_pos (end_ - start) 2).
      pose proof (Z.mul_div_le (end_ - start) 2).
      pose proof (Z.div_lt_upper_bound (end_ - start) 2 (end_ - start)). lia. }
    destruct (lookup_lt_is_Some_2 (_keys t) (Z.to_nat m)) as [km Hkm]; [lia|].
    assert (at_ (_keys t) m = Some km) as Hatm
      by (rewrite <- (Z2Nat.id m) by lia; by rewrite at_nat).
    unfold lt_slot, gt_slot, js_gt. rewrite Hatm.
    destruct (js_lt key km) eqn:Hkey_km.
    + (* the left half *)
      assert (start < m)%Z.
      { destruct (decide (start = m)) as [Heq|?]; [|lia].
        rewrite <- Heq in Hkm. simplify_eq.
        destruct (key_lt_irrefl key). by eapply key_lt_trans. }
      apply IH; [lia|lia|lia|done|].
      intros j b Hj Hb.
      destruct (sorted_le (_keys t) (Z.to_nat m) j km b) as [<-|Hlt'];
        [done|lia|done|done|done|].
      by eapply key_lt_trans.
    + destruct (js_lt km key) eqn:Hkm_key.
      * (* the right half *)
        apply IH; [lia|lia|lia| |done].
        intros j a Hj Ha.
        destruct (sorted_le (_keys t) j (Z.to_nat m) a km) as [->|Hlt'];
          [done|lia|done|done|done|].
        by eapply key_lt_trans.
      * destruct (js_lt_total key km) as [?|[->|?]]; [congruence| |congruence].
        destruct Hfresh. by eapply list_elem_of_lookup_2.
Qed.
End SortedKeys.

Section SortedSetAll.
Context {K V : Type} `{EqDecision K} `{JsValue V} `{TotalSortKey K}.
Import JsArray TSMap.
Implicit Types (t : TSMap K V) (key : K) (value : V).

(** one call with a new key: the keys stay sorted and gain [key] *)
Lemma sortedSet_fresh t key value :
  StronglySorted key_lt (_keys t) ->
  key ∉ _keys t ->
  StronglySorted key_lt (_keys (sortedSet t key value None None))
  /\ _keys (sortedSet t key value None None) ≡ₚ key :: _keys t.
Proof.
  intros Hsorted Hfresh. unfold sortedSet. simpl.
  destruct (_keys t) as [|k0 ks] eqn:Hks.
  - rewrite sortedSet_at_unfold, Hks. simpl. split; [|done].
    repeat constructor.
  - rewrite <- Hks in *.
    assert (0 < List.length (_keys t)) by (rewrite Hks; simpl; lia).
    destruct (sortedSet_at_inserts
                (Z.to_nat (Z.of_nat (List.length (_keys t)) - 1 - 0))
                t key value 0 (Z.of_nat (List.length (_keys t)) - 1))
      as (n & -> & Hlow & Hhigh); try done; try lia.
    + intros j b Hj Hb. apply lookup_lt_Some in Hb. lia.
    + split; [by apply StronglySorted_insert|].
      rewrite <- Permutation_middle. by rewrite take_drop.
Qed.

Lemma sortedSet_all_from (kvs : list (K * V)) t :
  StronglySorted key_lt (_keys t) ->
  NoDup (kvs.*1 ++ _keys t) ->
  let t' :=
    fold_left (fun t kv => sortedSet t (fst kv) (snd kv) None None) kvs t in
  StronglySorted key_lt (_keys t') /\ _keys t' ≡ₚ kvs.*1 ++ _keys t.
Proof.
  revert t. induction kvs as [|[k v] kvs IH]; intros t Hsorted Hnd; simpl.
  - done.
  - simpl in Hnd. apply NoDup_cons in Hnd as [Hk Hnd].
    destruct (sortedSet_fresh t k v) as [Hs Hp]; [done| |].
    { intros Hin. apply Hk. apply elem_of_app. by right. }
    destruct (IH (sortedSet t k v None None)) as [Hs' Hp']; [done| |].
    + rewrite Hp. apply NoDup_app in Hnd as (Hn1 & Hn2 & Hn3).
      apply NoDup_app. split; [done|]. split.
      * intros x Hx. rewrite not_elem_of_cons. split; [|by apply Hn2].
        intros ->. apply Hk. apply elem_of_app. by left.
      * apply NoDup_cons. split; [|done].
        intros Hin. apply Hk. apply elem_of_app. by right.
    + split; [done|]. rewrite Hp', Hp. by rewrite Permutation_middle.
Qed.

(** a sequence of calls with pairwise distinct keys on a new map *)
Lemma sortedSet_all_sorted (kvs : list (K * V)) :
  NoDup kvs.*1 ->
  StronglySorted key_lt (keys (sortedSet_all kvs))
  /\ keys (sortedSet_all kvs) ≡ₚ kvs.*1.
Proof.
  intros Hnd. unfold keys, sortedSet_all.
  destruct (sortedSet_all_from kvs empty) as [Hs Hp].
  - constructor.
  - simpl. by rewrite app_nil_r.
  - split; [done|]. rewrite Hp. simpl. by rewrite app_nil_r.
Qed.
End SortedSetAll.

#[global] Instance Z_total_sortkey : TotalSortKey Z.
Proof.
  split; simpl.
  - intros a b. apply Z.eqb_eq.
  - apply Z.ltb_irrefl.
  - intros a b c. rewrite !Z.ltb_lt. lia.
  - intros a b. rewrite !Z.ltb_lt. lia.
  - done.
Qed.

(** C2 (P7, sorted invariant): calls [sortedSet(key, value)] with pairwise
    distinct keys of a totally ordered type, made on a new map, leave
    [keys()] in strictly ascending order, holding exactly the keys that
    were given; and [sortedSet(5,"x")], [sortedSet(1,"y")],
    [sortedSet(9,"z")] leave [keys()] at [[1, 5, 9]]. *)
Theorem sortedSet_keys_ascending :
  (forall (K V : Type) `{EqDecision K} `{JsValue V} `{TotalSortKey K}
          (kvs : list (K * V)),
      NoDup kvs.*1 ->
      StronglySorted key_lt (TSMap.keys (sortedSet_all kvs))
      /\ TSMap.keys (sortedSet_all kvs) ≡ₚ kvs.*1)
  /\ TSMap.keys
       (sortedSet_all [(5, PStr "x"); (1, PStr "y"); (9, PStr "z")]%Z)
     = [1; 5; 9]%Z.
Proof.
  split; [|reflexivity].
  intros K V ? ? ? ? kvs Hnd. by apply sortedSet_all_sorted.
Qed.

Lemma sortedSet_keys_ascending_witness :
  let kvs := [(4, PNum 0); (2, PNum 1); (8, PNum 2); (6, PNum 3)]%Z in
  StronglySorted key_lt (TSMap.keys (sortedSet_all kvs))
  /\ TSMap.keys (sortedSet_all kvs) ≡ₚ kvs.*1.
Proof.
  intros kvs.
  apply (proj1 sortedSet_keys_ascending Z prim _ _ _ _ kvs).
  apply (bool_decide_unpack _). vm_compute. exact I.
Defined.

(** ** C4: clone *)

Section CloneFacts.
Context {K V : Type} `{EqDecision K} `{JsValue V}.
Import JsArray TSMap.
Implicit Types (t : TSMap K V) (key : K) (value : V).

(** setting new keys one after the other appends them *)
Lemma set_each_new (kvs : list (K * V)) t :
  I1 t ->
  NoDup (_keys t ++ kvs.*1) ->
  fold_left (fun t kv => set t (fst kv) (snd kv)) kvs t
  = mk (_keys t ++ kvs.*1) (_values t ++ kvs.*2)
       (List.length (_keys t ++ kvs.*1)).
Proof.
  revert t. induction kvs as [|[k v] kvs IH]; intros t [Hkv Hlen] Hnd; simpl.
  - rewrite !app_nil_r, <- Hlen. by destruct t.
  - assert (has t k = false) as Hhas.
    { apply not_true_is_false. rewrite has_elem. intros Hin.
      apply NoDup_app in Hnd as (_ & Hnd & _). apply (Hnd k Hin). by left. }
    rewrite IH.
    + rewrite set_missing by done. simpl. by rewrite <- !app_assoc.
    + apply set_I1. by split.
    + rewrite set_missing by done. simpl. by rewrite <- app_assoc.
Qed.

(** on a map with I1 and I2, [entries()] pairs the two arrays slot by slot *)
Lemma entries_zip t :
  I1 t -> I2 t -> entries t = zip (_keys t) (_values t).
Proof.
  intros [Hkv _] Hnd. unfold entries, keys.
  apply list_eq. intros n. rewrite list_lookup_fmap.
  destruct (_keys t !! n) as [k|] eqn:Hk; simpl.
  - pose proof (lookup_lt_Some _ _ _ Hk) as Hlt.
    destruct (lookup_lt_is_Some_2 (_values t) n) as [v Hv]; [lia|].
    rewrite (get_found t k n) by by apply indexOf_lookup_NoDup.
    rewrite Hv. simpl. symmetry. apply lookup_zip_with_Some. eauto.
  - symmetry. apply lookup_ge_None. rewrite length_zip_with.
    apply lookup_ge_None in Hk. lia.
Qed.

End CloneFacts.

(** The copy is a new object, and the map it was taken from is untouched
    by the call. *)
Lemma clone_allocates (h : gmap Heap.loc Heap.hobj) this h' copy :
  Heap.clone h this = Some (h', copy) ->
  h !! copy = None /\ h' !! this = h !! this /\ is_Some (h' !! copy).
Proof.
  unfold Heap.clone, Heap.entries, Heap.new, Heap.alloc.
  destruct (h !! this) as [[m|]|] eqn:Hthis; try done.
  intros [= <- <-].
  assert (h !! fresh (dom h) = None) as Hfresh.
  { apply not_elem_of_dom. apply is_fresh. }
  split; [done|]. split.
  - rewrite lookup_insert_ne; [done|]. intros Heq. congruence.
  - rewrite lookup_insert_eq. eauto.
Qed.

(** C4 fails for nested values.  [original] holds under ["a"] a reference
    to the map [inner].  Its clone is another object, but it holds the same
    reference under ["a"]: [copy.get("a").set("x", 1)] writes to [inner],
    and [original.get("a").get("x")], which was [undefined], is then [1]. *)
Theorem clone_shares_nested_map :
  let '(h1, inner) := Heap.new ∅ None in
  let '(h2, original) := Heap.new h1 (Some [(PStr "a", Heap.HRef inner)]) in
  match Heap.clone h2 original with
  | Some (h3, copy) =>
      copy <> original
      /\ Heap.get h3 copy (PStr "a") = Some (Heap.HRef inner)
      /\ Heap.get h3 original (PStr "a") = Some (Heap.HRef inner)
      /\ Heap.get h3 inner (PStr "x") = Some (Heap.HPrim PUndefined)
      /\ match Heap.set h3 inner (PStr "x") (Heap.HPrim (PNum 1)) with
         | Some h4 =>
             Heap.get h4 original (PStr "a") = Some (Heap.HRef inner)
             /\ Heap.get h4 inner (PStr "x") = Some (Heap.HPrim (PNum 1))
         | None => False
         end
  | None => False
  end.
Proof. vm_compute. repeat split; discriminate. Qed.

(** ** toJSON and fromJSON: the equations of the source *)

Section JsonFacts.
Import JsArray TSMap Json.
Implicit Types (m t : TSMap prim mval) (v : mval) (j : json).


Lemma get_map_values {A B} `{JsValue A} `{JsValue B} (f : A -> B)
    (ks : list prim) (vs : list A) (n n' : nat) (k : prim) :
  f undefined = undefined ->
  get (mk ks (List.map f vs) n') k = f (get (mk ks vs n) k).
Proof.
  intros Hf. unfold get. simpl.
  destruct (indexOf ks k >? -1)%Z; [|done].
  unfold at_. destruct (indexOf ks k <? 0)%Z; [done|].
  rewrite list_lookup_fmap. by destruct (vs !! _).
Qed.

Lemma toJSON_loop_ext (ks : list prim) (read read' : prim -> json) :
  (forall k, read k = read' k) -> toJSON_loop ks read = toJSON_loop ks read'.
Proof.
  intros Hext. unfold toJSON_loop. generalize (@None json, @nil (string * json)).
  induction ks as [|k ks IH]; intros o; simpl; [done|]. by rewrite Hext, IH.
Qed.

(** [getValue] on a map is the [toJSON()] of that map *)
Lemma getValue_VMap m : getValue (VMap m) = toJSON m.
Proof.
  destruct m as [ks vs n]. unfold toJSON. simpl. unfold keys. simpl.
  rewrite (toJSON_loop_ext ks _ (fun k => getValue (get (mk ks vs n) k))).
  - done.
  - intros k. by apply get_map_values.
Qed.

Lemma setProperty_true j : setProperty true j = convert j.
Proof. unfold setProperty. by destruct j. Qed.

Lemma setProperty_false j : setProperty false j = Some (raw j).
Proof. unfold setProperty. by rewrite andb_false_r. Qed.

(** what [setProperty] stores for a primitive, whatever [convertObjs] *)
Lemma setProperty_prim convertObjs p :
  setProperty convertObjs (JPrim p) = Some (VPrim p).
Proof. by destruct convertObjs. Qed.

(** with [convertObjs], what [setProperty] stores for an array is no array *)
Lemma setProperty_array_no_array elems vs :
  setProperty true (JArr elems) <> Some (VArr vs).
Proof.
  rewrite setProperty_true. simpl. by destruct (set_all _ _ _).
Qed.

Lemma obj_lookup_fmap {A B} (f : A -> B) (props : list (string * A)) s :
  obj_lookup (prod_map id f <$> props) s = f <$> obj_lookup props s.
Proof.
  induction props as [|[s' a] props IH]; simpl; [done|].
  by destruct (String.eqb s s').
Qed.

Lemma own_entries_fmap {A B} (f : A -> B) (d : A) (props : list (string * A)) :
  own_entries (f d) (prod_map id f <$> props)
  = prod_map id f <$> own_entries d props.
Proof.
  unfold own_entries.
  replace (List.map fst (prod_map id f <$> props)) with (List.map fst props).
  - rewrite <- list_fmap_compose. apply list_fmap_ext. intros _ s _. simpl.
    rewrite obj_lookup_fmap. by destruct (obj_lookup props s).
  - rewrite <- !list_fmap_compose. by apply list_fmap_ext; intros _ [] _.
Qed.

(** [convert] on an array or an object is [new TSMap().fromJSON(value,
    true)], the call that [setProperty] makes *)
Lemma convert_unfold j :
  convert j =
    match j with
    | JPrim p => Some (VPrim p)
    | JArr _ | JObj _ _ => VMap <$> fromJSON empty j true
    end.
Proof.
  destruct j as [p|elems|proto props]; [done| |].
  - unfold fromJSON. simpl. f_equal. f_equal.
    change (List.map ?f ?l) with (f <$> l).
    rewrite fmap_imap, imap_fmap. apply imap_ext. intros i x _. simpl.
    by rewrite setProperty_true.
  - unfold fromJSON. cbn [convert own_properties]. f_equal. f_equal.
    match goal with
    | |- own_entries _ (?go props) = _ =>
        assert (go props = prod_map id convert <$> props) as ->
    end.
    { induction props as [|[s v] props IH]; [done|]. simpl. by rewrite IH. }
    rewrite (own_entries_fmap convert (JPrim PUndefined)).
    apply list_fmap_ext. intros _ [s v] _. simpl.
    by rewrite setProperty_true.
Qed.

(** [fromJSON] calls nothing but [set] on the map, so it keeps I1 *)
Lemma set_all_I1 callable t converted t' :
  I1 t -> set_all callable t converted = Some t' -> I1 t'.
Proof.
  unfold set_all. revert t.
  induction converted as [|[s [v|]] l IH]; intros t Ht; simpl.
  - by intros [= <-].
  - destruct callable.
    + apply IH. by apply set_I1.
    + intros Hf. exfalso. clear -Hf. by induction l.
  - destruct callable; intros Hf; exfalso; clear -Hf; by induction l.
Qed.

Lemma fromJSON_I1 t j convertObjs t' :
  I1 t -> fromJSON t j convertObjs = Some t' -> I1 t'.
Proof.
  unfold fromJSON. destruct (own_properties j); [|done]. apply set_all_I1.
Qed.
End JsonFacts.

(** ** C5 and C8: what fromJSON builds, and the round trip *)

Section RoundTrip.
Import JsArray TSMap Json.
Implicit Types (m t : TSMap prim mval) (v : mval) (j : json).

Lemma plain_key_PStr k : plain_key k = true -> k = PStr (String_ k).
Proof. by destruct k. Qed.

Lemma plain_key_spec k :
  plain_key k = true ->
  array_index (String_ k) = None
  /\ String_ k <> "__proto__" /\ String_ k <> "hasOwnProperty".
Proof.
  destruct k as [| |b|n|s]; try done. simpl.
  rewrite !andb_true_iff, !negb_true_iff, !String.eqb_neq.
  intros [[Hi Hp] Hh]. by destruct (array_index s).
Qed.


Lemma has_own_fresh {A} (props : list (string * A)) s :
  s ∉ props.*1 -> has_own props s = false.
Proof.
  unfold has_own. induction props as [|[s' a] props IH]; simpl; [done|].
  rewrite not_elem_of_cons. intros [Hne Hnot].
  destruct (String.eqb_spec s s'); [done|]. by apply IH.
Qed.

(** on names that are no indices [Object.keys] keeps the order of creation *)
Lemma own_keys_plain (names : list string) :
  Forall (fun s => array_index s = None) names -> own_keys names = names.
Proof.
  intros Hall. unfold own_keys.
  assert (fold_right
            (fun s acc =>
               match array_index s with
               | Some n => insert_index n s acc
               | None => acc
               end) [] names = []) as ->.
  { induction Hall as [|s names Hs _ IH]; simpl; [done|]. by rewrite Hs. }
  simpl. induction Hall as [|s names Hs _ IH]; simpl; [done|].
  by rewrite Hs, IH.
Qed.

Lemma own_entries_plain {A} (d : A) (props : list (string * A)) :
  Forall (fun s => array_index s = None) props.*1 ->
  NoDup props.*1 ->
  own_entries d props = props.
Proof.
  intros Hall Hnd. unfold own_entries.
  change (List.map fst props) with (props.*1). rewrite own_keys_plain by done.
  clear Hall. induction props as [|[s a] props IH]; simpl; [done|].
  simpl in Hnd. apply NoDup_cons in Hnd as [Hs Hnd].
  rewrite String.eqb_refl. simpl. f_equal.
  rewrite <- IH at 2 by done.
  apply map_ext_in. intros s' Hin. apply list_elem_of_In in Hin.
  destruct (String.eqb_spec s' s) as [->|]; [by destruct Hs|done].
Qed.

(** [toJSON] on plain keys: one property for each key, as created *)
Lemma toJSON_loop_plain (ks : list prim) (read : prim -> json) :
  Forall (fun k => plain_key k = true) ks ->
  NoDup ks ->
  toJSON_loop ks read = (None, (fun k => (String_ k, read k)) <$> ks).
Proof.
  intros Hall Hnd. unfold toJSON_loop.
  (* with the properties already written below [acc] *)
  enough (forall acc : list (string * json),
             (forall k, k ∈ ks -> String_ k ∉ acc.*1) ->
             fold_left (fun obj k => obj_set obj (String_ k) (read k)) ks
               (None, acc)
             = (None, acc ++ ((fun k => (String_ k, read k)) <$> ks))) as Hgen.
  { rewrite (Hgen []); [done|]. intros k _. apply not_elem_of_nil. }
  induction ks as [|k ks IH]; intros acc Hacc; simpl.
  - by rewrite app_nil_r.
  - apply Forall_cons in Hall as [Hk Hall].
    apply NoDup_cons in Hnd as [Hnotin Hnd].
    destruct (plain_key_spec k Hk) as (_ & Hproto & _).
    rewrite has_own_fresh by (apply Hacc; by left).
    destruct (String.eqb_spec (String_ k) "__proto__") as [|_]; [done|]. simpl.
    rewrite IH; [by rewrite <- app_assoc|done|done|].
    intros k' Hk'. rewrite fmap_app. simpl.
    apply not_elem_of_app. split.
    + apply Hacc. by right.
    + apply not_elem_of_cons. split; [|apply not_elem_of_nil]. intros Heq.
      assert (plain_key k' = true) as Hk'plain.
      { rewrite Forall_forall in Hall. by apply Hall. }
      apply plain_key_PStr in Hk, Hk'plain.
      apply Hnotin. by rewrite Hk, <- Heq, <- Hk'plain.
Qed.

Lemma set_all_Some t (l : list (string * mval)) :
  set_all true t (prod_map id Some <$> l)
  = Some (fold_left (fun t kv => set t (fst kv) (snd kv))
            (prod_map PStr id <$> l) t).
Proof.
  unfold set_all. revert t. induction l as [|[s v] l IH]; intros t; simpl;
    [done|apply IH].
Qed.





End RoundTrip.



(** Further ways in which the round trip of C8 changes a map: a nested map
    comes back as a plain object unless [convertObjs] is given, an array
    comes back as a map when it is, and a number used as a key comes back
    as a string. *)
Example roundtrip_changes_values :
  let inner := TSMap.mk [PStr "c"] [Json.VPrim (PNum 2)] 1 in
  let x := TSMap.mk [PStr "a"; PStr "b"]
             [Json.VMap inner; Json.VArr [Json.VPrim (PNum 1)]] 2 in
  Json.fromJSON TSMap.empty (Json.toJSON x) false
  = Some (TSMap.mk [PStr "a"; PStr "b"]
            [Json.VObj None [("c", Json.JPrim (PNum 2))];
             Json.VArr [Json.VPrim (PNum 1)]] 2)
  /\ Json.fromJSON TSMap.empty (Json.toJSON x) true
     = Some (TSMap.mk [PStr "a"; PStr "b"]
               [Json.VMap inner;
                Json.VMap (TSMap.mk [PStr "0"] [Json.VPrim (PNum 1)] 1)] 2).
Proof. by vm_compute. Qed.

Example roundtrip_changes_number_key :
  let x := TSMap.mk [PNum 7] [Json.VPrim (PBool true)] 1 in
  Json.fromJSON TSMap.empty (Json.toJSON x) true
  = Some (TSMap.mk [PStr "7"] [Json.VPrim (PBool true)] 1).
Proof. by vm_compute. Qed.

(** C5 fails for arrays.  With [convertObjs] given, the array under ["a"]
    passes the test [typeof value === 'object'] before [Array.isArray] is
    asked, and is stored as a map with the keys ["0"], ["1"], not as an
    array; the object inside it is converted to a map, as is the object
    under ["b"], and the number under ["n"] is stored as it is. *)
Theorem fromJSON_stores_array_as_map :
  let jsonObject :=
    Json.JObj None
      [("a", Json.JArr [Json.JPrim (PNum 1);
                        Json.JObj None [("c", Json.JPrim (PNum 2))]]);
       ("b", Json.JObj None [("d", Json.JPrim (PStr "e"))]);
       ("n", Json.JPrim (PNum 3))] in
  Json.fromJSON TSMap.empty jsonObject true
  = Some (TSMap.mk [PStr "a"; PStr "b"; PStr "n"]
            [Json.VMap
               (TSMap.mk [PStr "0"; PStr "1"]
                  [Json.VPrim (PNum 1);
                   Json.VMap (TSMap.mk [PStr "c"] [Json.VPrim (PNum 2)] 1)]
                  2);
             Json.VMap (TSMap.mk [PStr "d"] [Json.VPrim (PStr "e")] 1);
             Json.VPrim (PNum 3)]
            3)
  /\ forall elems,
       Json.fromJSON TSMap.empty jsonObject true
       <> Some (TSMap.mk [PStr "a"; PStr "b"; PStr "n"]
                  [Json.VArr elems;
                   Json.VMap (TSMap.mk [PStr "d"] [Json.VPrim (PStr "e")] 1);
                   Json.VPrim (PNum 3)]
                  3).
Proof. split; [by vm_compute|]. intros elems. vm_compute. discriminate. Qed.

(** ** The scenarios of the specification *)

(** Scenarios 1 and 2: [set("a",1).set("b",2).set("a",3)], then
    [delete("b")] twice. *)
Example scenario_set_delete :
  let m : TSMap.TSMap prim prim :=
    TSMap.set (TSMap.set (TSMap.set TSMap.empty (PStr "a") (PNum 1))
                 (PStr "b") (PNum 2)) (PStr "a") (PNum 3) in
  TSMap.keys m = [PStr "a"; PStr "b"]
  /\ TSMap.get m (PStr "a") = PNum 3
  /\ TSMap.size m = 2
  /\ snd (TSMap.delete m (PStr "b")) = true
  /\ TSMap.keys (fst (TSMap.delete m (PStr "b"))) = [PStr "a"]
  /\ snd (TSMap.delete (fst (TSMap.delete m (PStr "b"))) (PStr "b")) = false.
Proof. by vm_compute. Qed.

(** Scenario 4: [fromJSON({a:1,b:{c:2}}, true)], and [toJSON()] back. *)
Example scenario_fromJSON :
  let jsonObject :=
    Json.JObj None
      [("a", Json.JPrim (PNum 1));
       ("b", Json.JObj None [("c", Json.JPrim (PNum 2))])] in
  exists m3 inner,
    Json.fromJSON TSMap.empty jsonObject true = Some m3
    /\ TSMap.get m3 (PStr "b") = Json.VMap inner
    /\ TSMap.get inner (PStr "c") = Json.VPrim (PNum 2)
    /\ Json.toJSON m3 = jsonObject.
Proof. eexists _, _. by vm_compute. Qed.

(* ===================================================================== *)
(** * Part III: further properties of the methods                          *)
(* ===================================================================== *)

(** ** set, the constructor, delete *)

Section SetDeleteFacts.
Context {K V : Type} `{EqDecision K} `{JsValue V}.
Import JsArray TSMap.
Implicit Types (t : TSMap K V) (key : K) (value : V).

Lemma indexOf_first (arr : list K) key n :
  arr !! n = Some key ->
  (forall j, j < n -> arr !! j <> Some key) ->
  indexOf arr key = Z.of_nat n.
Proof.
  intros Hn Hfirst.
  destruct (indexOf_spec arr key) as [[_ Hm]|(n' & -> & Hn' & Hfirst')].
  - destruct Hm. by eapply list_elem_of_lookup_2.
  - f_equal. destruct (Nat.lt_total n n') as [Hlt|[->|Hlt]]; [|done|].
    + by destruct (Hfirst' n Hlt).
    + by destruct (Hfirst n' Hlt).
Qed.

Lemma indexOf_app_l (arr arr' : list K) key :
  key ∈ arr -> indexOf (arr ++ arr') key = indexOf arr key.
Proof.
  intros Hin. apply indexOf_elem, indexOf_found in Hin
    as (n & -> & Hn & Hlt & Hfirst).
  apply indexOf_first.
  - by rewrite lookup_app_l.
  - intros j Hj. rewrite lookup_app_l by lia. by apply Hfirst.
Qed.

(** under I2 the slot of [_values] that [get] reads is the one under the
    key *)
Lemma get_lookup t key n :
  I2 t -> _keys t !! n = Some key ->
  get t key = default undefined (_values t !! n).
Proof.
  intros Hnd Hn. apply get_found. by apply indexOf_lookup_NoDup.
Qed.

Lemma has_set t key value key' :
  has (set t key value) key' = has t key' || bool_decide (key' = key).
Proof.
  apply eq_true_iff_eq. rewrite orb_true_iff, bool_decide_eq_true, !has_elem.
  destruct (has t key) eqn:Hhas.
  - rewrite set_found by done. simpl. apply has_elem in Hhas.
    split; [by left|]. by intros [?| ->].
  - rewrite set_missing by done. simpl.
    rewrite elem_of_app, list_elem_of_singleton. done.
Qed.

Lemma get_set_other t key value key' :
  I1 t -> key' <> key -> get (set t key value) key' = get t key'.
Proof.
  intros [Hkv Hlen] Hne. destruct (has t key) eqn:Hhas.
  - rewrite set_found by done. unfold has in Hhas.
    destruct (indexOf_found _ _ Hhas) as (n & Hn & Hk & Hlt & _).
    unfold get. simpl.
    destruct (indexOf (_keys t) key' >? -1)%Z eqn:Hhas'; [|done].
    destruct (indexOf_found _ _ Hhas') as (n' & Hn' & Hk' & Hlt' & _).
    rewrite Hn, Hn', assign_nat, !at_nat by lia.
    rewrite list_lookup_insert_ne; [done|]. intros ->. congruence.
  - rewrite set_missing by done. unfold get. simpl.
    destruct (indexOf (_keys t) key' >? -1)%Z eqn:Hhas'.
    + pose proof (indexOf_found _ _ Hhas') as (n' & Hn' & Hk' & Hlt' & _).
      rewrite indexOf_app_l by by eapply list_elem_of_lookup_2.
      rewrite Hhas', Hn', !at_nat. by rewrite lookup_app_l by lia.
    + rewrite indexOf_not_elem; [done|].
      apply indexOf_missing in Hhas'.
      rewrite elem_of_app, list_elem_of_singleton. by intros [?|?].
Qed.

Lemma get_set_same t key value :
  I1 t -> get (set t key value) key = value.
Proof.
  intros [Hkv _]. destruct (has t key) eqn:Hhas.
  - by apply get_set_found.
  - by apply get_set_missing.
Qed.

(** X1.  For keys other than [NaN] (on which [===] is equality), [set] on
    a map with I1: the key is there afterwards and [get] answers the
    value; every other key is there or not as before, with the value it
    had; the keys are the old ones, with the key at their end when it is
    new.  (A [NaN] key is outside the statement: the source appends it at
    every [set] and never finds it.) *)
Theorem set_get_has t key value key' :
  I1 t ->
  get (set t key value) key' = (if decide (key' = key) then value else get t key')
  /\ has (set t key value) key' = (has t key' || bool_decide (key' = key))
  /\ keys (set t key value)
     = (if has t key then keys t else keys t ++ [key]).
Proof.
  intros HI1. split; [|split].
  - destruct (decide (key' = key)) as [->|Hne].
    + by apply get_set_same.
    + by apply get_set_other.
  - apply has_set.
  - unfold keys. destruct (has t key) eqn:Hhas.
    + by rewrite set_found.
    + by rewrite set_missing.
Qed.

Lemma set_I2 t key value : I2 t -> I2 (set t key value).
Proof.
  unfold I2. intros Hnd. destruct (has t key) eqn:Hhas.
  - by rewrite set_found.
  - rewrite set_missing by done. simpl.
    apply NoDup_app. split; [done|]. split; [|apply NoDup_singleton].
    intros x Hx ->%list_elem_of_singleton.
    apply has_elem in Hx. congruence.
Qed.

Lemma delete_found t key n :
  indexOf (_keys t) key = Z.of_nat n -> n < List.length (_keys t) ->
  delete t key
  = (mk (take n (_keys t) ++ drop (S n) (_keys t))
        (splice (_values t) (Z.of_nat n) 1 [])
        (List.length (take n (_keys t) ++ drop (S n) (_keys t))), true).
Proof.
  intros Hn Hlt. unfold delete. rewrite Hn.
  destruct (Z.gtb_spec (Z.of_nat n) (-1)); [|lia].
  by rewrite splice_delete_nat.
Qed.

Lemma delete_I2 t key : I2 t -> I2 (fst (delete t key)).
Proof.
  unfold I2. intros Hnd. unfold delete.
  destruct (indexOf (_keys t) key >? -1)%Z eqn:Hi; [|done].
  destruct (indexOf_found _ _ Hi) as (n & Hn & _ & Hlt & _).
  rewrite Hn, splice_delete_nat by done. simpl.
  rewrite <- (take_drop n (_keys t)) in Hnd.
  apply NoDup_app in Hnd as (Ht & Hcross & Hd).
  apply NoDup_app. split; [done|]. split.
  - intros x Hx Hx'. apply (Hcross x Hx).
    apply list_elem_of_lookup_1 in Hx' as [j Hj].
    rewrite lookup_drop in Hj. apply (list_elem_of_lookup_2 _ (S j)).
    rewrite lookup_drop. by replace (n + S j) with (S n + j) by lia.
  - replace (drop (S n) (_keys t)) with (drop 1 (drop n (_keys t)))
      by (rewrite drop_drop; f_equal; lia).
    destruct (drop n (_keys t)) as [|x l]; [done|].
    by apply NoDup_cons in Hd as [_ ?].
Qed.

Lemma perform_I2 t (c : call K V) : I2 t -> I2 (perform t c).
Proof.
  destruct c; simpl; [apply set_I2|apply delete_I2|intros _; apply NoDup_nil_2].
Qed.

(** X2.  I2, for keys other than [NaN] (on which [===] is equality):
    after any sequence of [set], [delete] and [clear] on a new map whose
    calls pass no [NaN] key, no key stands twice in [keys()].  (With a
    [NaN] key the source does store it twice.) *)
Theorem run_keys_distinct (cs : list (call K V)) : NoDup (keys (run cs)).
Proof.
  unfold keys, run.
  assert (I2 (empty : TSMap K V)) as Hempty by apply NoDup_nil_2.
  revert Hempty. generalize (empty : TSMap K V).
  induction cs as [|c cs IH]; intros t Ht; simpl; [done|].
  apply IH. by apply perform_I2.
Qed.
End SetDeleteFacts.

Section DeleteFacts.
Context {K V : Type} `{EqDecision K} `{JsValue V}.
Import JsArray TSMap.
Implicit Types (t : TSMap K V) (key : K) (value : V).

Lemma filter_other_notin (l : list K) key :
  key ∉ l -> List.filter (fun k => negb (bool_decide (k = key))) l = l.
Proof.
  intros Hnot. apply forallb_filter_id, forallb_forall.
  intros k Hk%list_elem_of_In. apply negb_true_iff, bool_decide_eq_false.
  by intros ->.
Qed.

(** the two arrays after a [delete] that found its key at index [n] *)
Lemma delete_found_I1 t key n :
  I1 t -> _keys t !! n = Some key -> I2 t ->
  fst (delete t key)
  = mk (base.delete n (_keys t)) (base.delete n (_values t))
       (List.length (base.delete n (_keys t)))
  /\ snd (delete t key) = true.
Proof.
  intros [Hkv _] Hn Hnd. pose proof (lookup_lt_Some _ _ _ Hn) as Hlt.
  rewrite (delete_found t key n); [|by apply indexOf_lookup_NoDup|done].
  simpl. rewrite splice_delete_nat by lia. by rewrite !delete_take_drop.
Qed.

Lemma lookup_delete_other {A} (l : list A) n j :
  j <> n -> l !! j = base.delete n l !! (if decide (j < n) then j else pred j).
Proof.
  intros Hne. destruct (decide (j < n)).
  - by rewrite list_lookup_delete_lt.
  - rewrite list_lookup_delete_ge by lia. f_equal. lia.
Qed.

(** X3.  [delete] on a map with I1 and I2 answers whether the key was
    there; afterwards the key is gone, the other keys stand in the order
    they had, and each of them has the value it had.  On a key that is not
    there it changes nothing. *)
Theorem delete_has_get t key :
  I1 t -> I2 t ->
  let t' := fst (delete t key) in
  snd (delete t key) = has t key
  /\ has t' key = false
  /\ (has t key = false -> t' = t)
  /\ keys t' = List.filter (fun k => negb (bool_decide (k = key))) (keys t)
  /\ forall key', key' <> key ->
       has t' key' = has t key' /\ get t' key' = get t key'.
Proof.
  intros HI1 HI2 t'. destruct (has t key) eqn:Hhas.
  - pose proof Hhas as Hi. unfold has in Hi.
    destruct (indexOf_found _ _ Hi) as (n & _ & Hn & Hlt & _).
    destruct (delete_found_I1 t key n HI1 Hn HI2) as [Ht' Hb].
    assert (key ∉ base.delete n (_keys t)) as Hgone.
    { intros [j Hj]%list_elem_of_lookup_1.
      destruct (decide (j < n)).
      - rewrite list_lookup_delete_lt in Hj by done.
        pose proof (NoDup_lookup _ _ _ _ HI2 Hj Hn). lia.
      - rewrite list_lookup_delete_ge in Hj by lia.
        pose proof (NoDup_lookup _ _ _ _ HI2 Hj Hn). lia. }
    assert (forall key', key' <> key ->
              (key' ∈ base.delete n (_keys t) <-> key' ∈ _keys t)) as Hsame.
    { intros key' Hne. rewrite delete_take_drop.
      rewrite <- (take_drop_middle _ _ _ Hn) at 3.
      rewrite !elem_of_app, elem_of_cons.
      split; [intros [?|?]; auto|intros [?|[?|?]]; [auto|done|auto]]. }
    split; [done|]. split; [|split; [done|split]].
    + apply not_true_is_false. rewrite has_elem. unfold t'. by rewrite Ht'.
    + unfold keys, t'. rewrite Ht'. simpl. rewrite delete_take_drop.
      rewrite <- (take_drop_middle _ _ _ Hn) at 3.
      rewrite List.filter_app. simpl.
      rewrite bool_decide_eq_true_2 by done. simpl.
      rewrite delete_take_drop in Hgone.
      rewrite !filter_other_notin; [done|..];
        intros Hin; apply Hgone, elem_of_app; auto.
    + intros key' Hne. split.
      * apply eq_true_iff_eq. rewrite !has_elem. unfold t'. rewrite Ht'.
        by apply Hsame.
      * destruct (has t key') eqn:Hhas'.
        -- pose proof Hhas' as Hi'. unfold has in Hi'.
           destruct (indexOf_found _ _ Hi') as (j & _ & Hj & _).
           assert (j <> n) as Hjn by (intros ->; congruence).
           rewrite (get_lookup t key' j) by done.
           rewrite (lookup_delete_other _ n j Hjn) in Hj.
           rewrite (lookup_delete_other (_values t) n j Hjn).
           unfold t'. rewrite Ht'.
           apply (get_lookup (mk _ _ _)); [|done].
           unfold I2. simpl. rewrite delete_take_drop.
           pose proof (delete_I2 t key HI2) as Hnd'.
           unfold I2 in Hnd'. rewrite Ht' in Hnd'. simpl in Hnd'.
           by rewrite delete_take_drop in Hnd'.
        -- rewrite (get_missing t) by done. apply get_missing.
           apply not_true_is_false. rewrite has_elem. unfold t'. rewrite Ht'.
           rewrite Hsame by done. rewrite <- has_elem. congruence.
  - assert (delete t key = (t, false)) as Hdel.
    { unfold delete. unfold has in Hhas. by rewrite Hhas. }
    unfold t'. rewrite Hdel. simpl.
    split; [done|]. split; [done|]. split; [done|]. split; [|done].
    unfold keys. rewrite filter_other_notin; [done|].
    rewrite <- has_elem. congruence.
Qed.
End DeleteFacts.

Lemma set_get_has_witness :
  let t : TSMap.TSMap prim prim :=
    TSMap.set TSMap.empty (PStr "a") (PNum 1) in
  TSMap.get (TSMap.set t (PStr "b") (PNum 2)) (PStr "a") = PNum 1.
Proof.
  intros t.
  destruct (set_get_has t (PStr "b") (PNum 2) (PStr "a")) as [Hget _].
  - split; reflexivity.
  - exact Hget.
Defined.

Lemma delete_has_get_witness :
  let t : TSMap.TSMap prim prim :=
    TSMap.set (TSMap.set TSMap.empty (PStr "a") (PNum 1)) (PStr "b") (PNum 2) in
  TSMap.keys (fst (TSMap.delete t (PStr "a"))) = [PStr "b"]
  /\ TSMap.get (fst (TSMap.delete t (PStr "a"))) (PStr "b") = PNum 2.
Proof.
  intros t.
  destruct (delete_has_get t (PStr "a")) as (_ & _ & _ & Hkeys & Hother).
  - split; reflexivity.
  - apply (bool_decide_unpack _). vm_compute. exact I.
  - split; [exact Hkeys|].
    destruct (Hother (PStr "b")) as [_ Hget]; [discriminate|exact Hget].
Defined.

(** ** The constructor and clone *)

Section ConstructorFacts.
Context {K V : Type} `{EqDecision K} `{JsValue V}.
Import JsArray TSMap.
Implicit Types (t : TSMap K V) (key : K) (value : V).

Lemma filter_filter_bool {A} (p q : A -> bool) (l : list A) :
  List.filter p (List.filter q l) = List.filter (fun x => p x && q x) l.
Proof.
  induction l as [|x l IH]; simpl; [done|].
  destruct (q x) eqn:Hq; simpl; rewrite ?andb_true_r, ?andb_false_r.
  - destruct (p x); by rewrite IH.
  - done.
Qed.

Lemma elem_of_first_occurrences (ks : list K) key :
  key ∈ first_occurrences ks <-> key ∈ ks.
Proof.
  induction ks as [|k ks IH]; simpl; [done|].
  rewrite !elem_of_cons, <- IH, list_elem_of_In, filter_In, <- list_elem_of_In.
  rewrite negb_true_iff, bool_decide_eq_false.
  split; [intros [?|[? ?]]; auto|].
  intros [?|?]; [auto|]. destruct (decide (key = k)); auto.
Qed.

Lemma NoDup_first_occurrences (ks : list K) : NoDup (first_occurrences ks).
Proof.
  induction ks as [|k ks IH]; simpl; [constructor|].
  apply NoDup_cons. split.
  - rewrite list_elem_of_In, filter_In, negb_true_iff, bool_decide_eq_false.
    by intros [_ ?].
  - apply NoDup_ListNoDup, List.NoDup_filter. by apply NoDup_ListNoDup.
Qed.

Lemma first_occurrences_NoDup (ks : list K) :
  NoDup ks -> first_occurrences ks = ks.
Proof.
  induction ks as [|k ks IH]; simpl; [done|].
  intros [Hk Hnd]%NoDup_cons. rewrite IH by done.
  by rewrite filter_other_notin.
Qed.

(** the keys after a run of [set]: the old ones, then the new ones in the
    order of their first occurrence *)
Lemma fold_set_keys (kvs : list (K * V)) t :
  _keys (fold_left (fun t kv => set t (fst kv) (snd kv)) kvs t)
  = _keys t
    ++ List.filter (fun k => negb (bool_decide (k ∈ _keys t)))
         (first_occurrences kvs.*1).
Proof.
  revert t. induction kvs as [|[k v] kvs IH]; intros t; simpl.
  - by rewrite app_nil_r.
  - rewrite IH. destruct (has t k) eqn:Hhas.
    + rewrite set_found by done. simpl. apply has_elem in Hhas.
      rewrite bool_decide_eq_true_2 by done. simpl. f_equal.
      rewrite filter_filter_bool. apply filter_ext_in.
      intros k' _. destruct (bool_decide_reflect (k' = k)) as [->|].
      * by rewrite bool_decide_eq_true_2.
      * by rewrite andb_true_r.
    + rewrite set_missing by done. simpl.
      assert (k ∉ _keys t) as Hnot by (rewrite <- has_elem; congruence).
      rewrite bool_decide_eq_false_2 by done. simpl.
      rewrite <- app_assoc. simpl. do 2 f_equal.
      rewrite filter_filter_bool. apply filter_ext_in.
      intros k' _. apply eq_true_iff_eq.
      rewrite andb_true_iff, !negb_true_iff, !bool_decide_eq_false.
      rewrite elem_of_app, list_elem_of_singleton. tauto.
Qed.

(** the value a key has after a run of [set]: the last one set, or the old
    one *)
Lemma fold_set_get (kvs : list (K * V)) t key :
  I1 t ->
  get (fold_left (fun t kv => set t (fst kv) (snd kv)) kvs t) key
  = default (get t key) (last_binding kvs key).
Proof.
  revert t. induction kvs as [|[k v] kvs IH]; intros t Ht; simpl; [done|].
  rewrite IH by by apply set_I1.
  destruct (last_binding kvs key); simpl; [done|].
  destruct (decide (key = k)) as [->|Hne].
  - by apply get_set_same.
  - by apply get_set_other.
Qed.

Lemma fold_set_I2 (kvs : list (K * V)) t :
  I2 t -> I2 (fold_left (fun t kv => set t (fst kv) (snd kv)) kvs t).
Proof.
  revert t. induction kvs as [|[k v] kvs IH]; intros t Ht; simpl; [done|].
  apply IH. by apply set_I2.
Qed.

(** X4.  For an [inputMap] whose keys are other than [NaN] (on which
    [===] is equality), [new TSMap(inputMap)] has I1 and I2.  Its keys are
    those of the pairs in the order of their first occurrence, and [get] answers for
    each key the value of the last pair with that key, [undefined] when
    there is none.  When the keys of the pairs are pairwise distinct,
    [keys()] and [values()] are the two columns of [inputMap]. *)
Theorem new_first_key_last_value (kvs : list (K * V)) :
  let t := new (Some kvs) in
  I1 t /\ I2 t
  /\ keys t = first_occurrences kvs.*1
  /\ (forall key, get t key = default undefined (last_binding kvs key))
  /\ (NoDup kvs.*1 -> keys t = kvs.*1 /\ values t = kvs.*2).
Proof.
  intros t. split; [apply new_I1|]. split; [|split; [|split]].
  - apply fold_set_I2. apply NoDup_nil_2.
  - unfold t, keys, new. rewrite fold_set_keys. simpl.
    apply forallb_filter_id, forallb_forall. by intros k _.
  - intros key. unfold t, new. rewrite fold_set_get by apply empty_I1.
    by rewrite (get_missing empty).
  - intros Hnd. unfold t, keys, values, new.
    rewrite set_each_new; [done|apply empty_I1|done].
Qed.

Lemma last_binding_entries (g : K -> V) (ks : list K) key :
  last_binding (List.map (fun k => (k, g k)) ks) key
  = if decide (key ∈ ks) then Some (g key) else None.
Proof.
  induction ks as [|k ks IH]; simpl; [done|]. rewrite IH.
  destruct (decide (key ∈ ks)) as [Hin|Hnot].
  - rewrite decide_True; [done|by right].
  - destruct (decide (key = k)) as [->|Hne].
    + rewrite decide_True; [done|by left].
    + rewrite decide_False; [done|]. by intros [?|?]%elem_of_cons.
Qed.

(** [clone()] answers [get] as the map does, whatever the map *)
Lemma clone_get t key : get (clone t) key = get t key.
Proof.
  unfold clone, new. rewrite fold_set_get by apply empty_I1.
  rewrite (get_missing empty) by done. unfold entries.
  rewrite last_binding_entries. destruct (decide (key ∈ keys t)); [done|].
  simpl. symmetry. apply get_missing.
  apply not_true_is_false. by rewrite has_elem.
Qed.

(** X5.  For keys other than [NaN] (on which [===] is equality),
    [clone()] of any map has I1 and I2; it has a key exactly when
    the map has it, and [get] answers for it what it answers on the map.
    Its keys are those of the map in the order of their first
    occurrence. *)
Theorem clone_get_has t :
  I1 (clone t) /\ I2 (clone t)
  /\ keys (clone t) = first_occurrences (keys t)
  /\ forall key,
       get (clone t) key = get t key /\ has (clone t) key = has t key.
Proof.
  assert ((entries t).*1 = keys t) as Hfst.
  { unfold entries. change (List.map ?f ?l) with (f <$> l).
    rewrite <- list_fmap_compose. apply list_fmap_id. }
  assert (keys (clone t) = first_occurrences (keys t)) as Hkeys.
  { unfold clone, keys, new. rewrite fold_set_keys, Hfst. simpl.
    apply forallb_filter_id, forallb_forall. by intros k _. }
  split; [apply new_I1|]. split; [|split; [done|]].
  - apply fold_set_I2. apply NoDup_nil_2.
  - intros key. split; [apply clone_get|].
    apply eq_true_iff_eq. rewrite !has_elem.
    unfold keys in Hkeys. rewrite Hkeys.
    apply elem_of_first_occurrences.
Qed.
End ConstructorFacts.

Lemma new_first_key_last_value_witness :
  let kvs := [(PStr "a", PNum 1); (PStr "b", PNum 2)] in
  TSMap.keys (TSMap.new (Some kvs)) = [PStr "a"; PStr "b"]
  /\ TSMap.values (TSMap.new (Some kvs)) = [PNum 1; PNum 2].
Proof.
  intros kvs.
  destruct (new_first_key_last_value kvs) as (_ & _ & _ & _ & Hdistinct).
  apply Hdistinct. apply (bool_decide_unpack _). vm_compute. exact I.
Defined.

(** ** filter, map and forEach *)

Section TraversalFacts.
Context {K V : Type} `{EqDecision K} `{JsValue V}.
Import JsArray TSMap.
Implicit Types (t : TSMap K V) (key : K) (value : V).

(** [filter], from the moment the entries [p] have been kept and the
    entries [r] are still to be visited *)
Lemma filter_from (callbackfn : V -> K -> Z -> bool) (number : nat -> nat)
    (r p : list (K * V)) :
  NoDup (p.*1 ++ r.*1) ->
  fold_left
    (fun t (iv : nat * K) =>
       let '(i, v) := iv in
       if negb (callbackfn (get t v) v (Z.of_nat i)) then fst (delete t v)
       else t)
    (imap (fun i k => (number i, k)) r.*1)
    (mk (p.*1 ++ r.*1) (p.*2 ++ r.*2) (List.length (p ++ r)))
  = let q := p ++ kept_from number callbackfn r in
    mk q.*1 q.*2 (List.length q).
Proof.
  revert p number. induction r as [|[k v] r IH]; intros p number Hnd.
  - unfold kept_from. simpl. by rewrite !app_nil_r.
  - rewrite !fmap_cons, imap_cons in *. cbn [fold_left fst snd] in *.
    set (t := mk (p.*1 ++ k :: r.*1) (p.*2 ++ v :: r.*2)
                (List.length (p ++ (k, v) :: r))).
    assert (I1 t) as HI1.
    { split; simpl; rewrite !length_app; simpl; by rewrite !length_fmap. }
    assert (_keys t !! List.length p = Some k) as Hk.
    { simpl. rewrite lookup_app_r by (rewrite length_fmap; lia).
      by rewrite length_fmap, Nat.sub_diag. }
    assert (get t k = v) as ->.
    { rewrite (get_lookup t k (List.length p)) by done. simpl.
      rewrite lookup_app_r by (rewrite length_fmap; lia).
      by rewrite length_fmap, Nat.sub_diag. }
    assert (kept_from number callbackfn ((k, v) :: r)
            = (if callbackfn v k (Z.of_nat (number 0)) then [(k, v)] else [])
              ++ kept_from (number ∘ S) callbackfn r) as ->.
    { unfold kept_from. rewrite imap_cons. cbn [omap list_omap fst snd].
      by destruct (callbackfn v k (Z.of_nat (number 0))). }
    destruct (callbackfn v k (Z.of_nat (number 0))); cbn [negb].
    + specialize (IH (p ++ [(k, v)]) (number ∘ S)).
      rewrite !fmap_app, <- !app_assoc in IH. cbn [fmap list_fmap app] in IH.
      cbn [fst snd] in IH. unfold t. etrans; [by apply IH|].
      cbn zeta. rewrite !fmap_app. by cbn [fmap list_fmap app fst snd].
    + destruct (delete_found_I1 t k (List.length p) HI1 Hk Hnd) as [-> _].
      cbn [_keys _values t].
      assert (forall A (a b : list A) x,
                 List.length a = List.length p ->
                 base.delete (List.length p) (a ++ x :: b) = a ++ b) as Hdel.
      { intros A a b x Ha. rewrite delete_take_drop.
        rewrite take_app_length' by done.
        rewrite drop_app_ge by lia.
        by replace (S (List.length p) - List.length a) with 1 by lia. }
      rewrite !Hdel by by rewrite length_fmap.
      specialize (IH p (number ∘ S)).
      rewrite !length_app, !length_fmap in *.
      cbn [app]. apply IH. apply NoDup_app in Hnd as (Hp & Hcross & Hr).
      apply NoDup_cons in Hr as [_ Hr].
      apply NoDup_app. split; [done|]. split; [|done].
      intros x Hx Hx'. apply (Hcross x Hx). by right.
Qed.

(** X6 (P6).  For keys other than [NaN] (on which [===] is equality), on
    a map with I1 and I2, [filter] with a pure callback
    leaves the entries for which the callback does not answer [false], in
    the order they had, each with its value; the callback gets the value,
    the key and the index the key had at entry.  The result has I1. *)
Theorem filter_keeps t (callbackfn : V -> K -> Z -> bool) :
  I1 t -> I2 t ->
  let q := kept callbackfn (zip (keys t) (values t)) in
  filter t callbackfn = mk q.*1 q.*2 (List.length q).
Proof.
  intros [Hkv Hlen] Hnd q. unfold filter.
  pose proof (filter_from callbackfn id (zip (_keys t) (_values t)) []) as Hf.
  simpl in Hf. rewrite fst_zip, snd_zip, length_zip_with in Hf by lia.
  replace (List.length (_keys t) `min` List.length (_values t))
    with (length t) in Hf by lia.
  destruct t as [ks vs n]. simpl in *. by apply Hf.
Qed.

(** X7.  For keys other than [NaN] (on which [===] is equality), on a
    map with I1 and I2, [map] answers the results of the
    callback on the entries in the order of the keys, each with its value
    and index, and [forEach] runs the callback over the same entries in
    the same order. *)
Theorem map_forEach_entries t :
  I1 t -> I2 t ->
  (forall (B : Type) (callbackfn : V -> K -> Z -> B),
      map t callbackfn
      = imap (fun i kv => callbackfn (snd kv) (fst kv) (Z.of_nat i))
          (zip (keys t) (values t)))
  /\ (forall (St : Type) (callbackfn : V -> K -> Z -> St -> St) (s : St),
         forEach t callbackfn s
         = fold_left
             (fun s ikv =>
                callbackfn (snd (snd ikv)) (fst (snd ikv))
                  (Z.of_nat (fst ikv)) s)
             (imap pair (zip (keys t) (values t))) s).
Proof.
  intros [Hkv Hlen] Hnd.
  assert (imap (fun i k => (i, (k, get t k))) (_keys t)
          = imap pair (zip (_keys t) (_values t))) as Hentries.
  { apply list_eq. intros i. rewrite !list_lookup_imap.
    destruct (_keys t !! i) as [k|] eqn:Hk; simpl.
    - pose proof (lookup_lt_Some _ _ _ Hk) as Hlt.
      destruct (lookup_lt_is_Some_2 (_values t) i) as [v Hv]; [lia|].
      rewrite (get_lookup t k i) by done. rewrite Hv. simpl.
      assert (zip (_keys t) (_values t) !! i = Some (k, v)) as ->; [|done].
      apply lookup_zip_with_Some. eauto.
    - assert (zip (_keys t) (_values t) !! i = None) as ->; [|done].
      apply lookup_ge_None. rewrite length_zip_with.
      apply lookup_ge_None in Hk. lia. }
  split.
  - intros B callbackfn. unfold map, keys, values.
    transitivity
      ((fun ikv : nat * (K * V) =>
          callbackfn (snd (snd ikv)) (fst (snd ikv)) (Z.of_nat (fst ikv)))
         <$> imap (fun i k => (i, (k, get t k))) (_keys t)).
    + by rewrite fmap_imap.
    + rewrite Hentries. by rewrite fmap_imap.
  - intros St callbackfn s. unfold forEach, keys, values.
    rewrite <- Hentries.
    replace (imap (fun i k => (i, (k, get t k))) (_keys t))
      with ((fun ik : nat * K => (fst ik, (snd ik, get t (snd ik))))
              <$> imap pair (_keys t)) by by rewrite fmap_imap.
    generalize (imap pair (_keys t)). intros l. revert s.
    induction l as [|ik l IH]; intros s; simpl; [done|]. apply IH.
Qed.
End TraversalFacts.

Lemma filter_keeps_witness :
  let t : TSMap.TSMap prim prim :=
    TSMap.mk [PStr "a"; PStr "b"; PStr "c"] [PNum 1; PNum 2; PNum 3] 3 in
  TSMap.filter t (fun v _ _ => negb (bool_decide (v = PNum 2)))
  = TSMap.mk [PStr "a"; PStr "c"] [PNum 1; PNum 3] 2.
Proof.
  intros t.
  rewrite (filter_keeps t (fun v _ _ => negb (bool_decide (v = PNum 2)))).
  - reflexivity.
  - split; reflexivity.
  - apply (bool_decide_unpack _). vm_compute. exact I.
Defined.

Lemma map_forEach_entries_witness :
  let t : TSMap.TSMap prim prim :=
    TSMap.mk [PStr "a"; PStr "b"] [PNum 1; PNum 2] 2 in
  TSMap.map t (fun v k i => (i, k, v))
  = [(0%Z, PStr "a", PNum 1); (1%Z, PStr "b", PNum 2)].
Proof.
  intros t.
  destruct (map_forEach_entries t) as [Hmap _].
  - split; reflexivity.
  - apply (bool_decide_unpack _). vm_compute. exact I.
  - rewrite Hmap. reflexivity.
Defined.

(** ** deepGet *)

Section DeepGetFacts.
Import JsArray TSMap.
Context {K V : Type} `{EqDecision K} `{JsValue V} `{Nesting K V}.
Implicit Types (t m : TSMap K V) (key : K) (path : list K) (obj : V).

Lemma recursiveGet_null_or_present obj path :
  recursiveGet obj path = null \/ absent (recursiveGet obj path) = false.
Proof.
  revert obj. induction path as [|k path IH]; intros obj; simpl.
  - destruct (absent obj) eqn:Habs; [by left|by right].
  - destruct (absent obj) eqn:Habs; [by left|]. apply IH.
Qed.

(** X8.  [deepGet] answers [null] or a value that is neither [undefined]
    nor [null]: never [undefined], although [get] answers it.  It answers
    [null] for the empty path and for every path whose first key is not in
    the map. *)
Theorem deepGet_null_on_miss t key path :
  absent undefined = true ->
  deepGet t [] = null
  /\ (deepGet t path = null \/ absent (deepGet t path) = false)
  /\ (has t key = false -> deepGet t (key :: path) = null).
Proof.
  intros Hundef. split; [done|]. split.
  - destruct path as [|k path]; [by left|]. apply recursiveGet_null_or_present.
  - intros Hmiss. simpl. rewrite get_missing by done.
    destruct path; simpl; by rewrite Hundef.
Qed.

(** X9.  [deepGet] with a path of one key answers what [get] answers,
    [null] standing for [undefined]; and where the value under the first
    key is a map, [deepGet] with a longer path is [deepGet] on that map
    with the rest of the path. *)
Theorem deepGet_descends t key path m :
  instanceof_TSMap (get t key) = Some m ->
  absent (get t key) = false ->
  deepGet t [key] = get t key
  /\ (path <> [] -> deepGet t (key :: path) = deepGet m path).
Proof.
  intros Hmap Hpresent. split.
  - simpl. by rewrite Hpresent.
  - intros Hpath. destruct path as [|k path]; [done|].
    simpl. by rewrite Hpresent, Hmap.
Qed.
End DeepGetFacts.

Lemma deepGet_null_on_miss_witness :
  let N := Json.mval_nesting (fun _ _ => Json.VPrim PUndefined) in
  let t : TSMap.TSMap prim Json.mval :=
    TSMap.mk [PStr "x"] [Json.VPrim (PNum 1)] 1 in
  TSMap.deepGet t [PStr "q"; PStr "r"] = Json.VPrim PNull.
Proof.
  intros N t.
  destruct (deepGet_null_on_miss t (PStr "q") [PStr "r"]) as (_ & _ & Hmiss).
  - reflexivity.
  - apply Hmiss. reflexivity.
Defined.

Lemma deepGet_descends_witness :
  let N := Json.mval_nesting (fun _ _ => Json.VPrim PUndefined) in
  let inner := TSMap.mk [PStr "y"] [Json.VPrim (PNum 1)] 1 in
  let t : TSMap.TSMap prim Json.mval :=
    TSMap.mk [PStr "x"] [Json.VMap inner] 1 in
  TSMap.deepGet t [PStr "x"; PStr "y"] = TSMap.deepGet inner [PStr "y"]
  /\ TSMap.deepGet inner [PStr "y"] = Json.VPrim (PNum 1).
Proof.
  intros N inner t. split; [|reflexivity].
  destruct (deepGet_descends t (PStr "x") [PStr "y"] inner) as [_ Hgo].
  - reflexivity.
  - reflexivity.
  - apply Hgo. discriminate.
Defined.

(** ** sortedSet: where the value goes *)

Section SortedSetShape.
Context {K V : Type} `{EqDecision K} `{JsValue V} `{SortKey K}.
Import JsArray TSMap.
Implicit Types (t : TSMap K V) (key : K) (value : V).

(** the four things one call can do to the two arrays *)
Lemma sortedSet_fuel_shape fuel t key value (start end_ : Z) :
  let t' := sortedSet_fuel fuel t key value start end_ in
  t' = t
  \/ (exists i, t' = mk (_keys t) (splice (_values t) i 0 [value]) (length t))
  \/ (exists i, _keys t <> []
                /\ t' = mk (splice (_keys t) i 0 [key])
                          (splice (_values t) i 0 [value]) (length t))
  \/ (_keys t = []
      /\ t' = mk (push (_keys t) key) (push (_values t) value) (length t)).
Proof.
  revert start end_. induction fuel as [|fuel IH]; intros start end_; simpl.
  all: destruct (Nat.eqb_spec (List.length (_keys t)) 0) as [Hz|Hnz].
  1,3: right; right; right; split; [by apply nil_length_inv|done].
  all: assert (_keys t <> []) by (intros Heq; by rewrite Heq in Hnz).
  all: repeat (case_match; eauto 8).
Qed.

(** [splice(i, 0, x)] puts [x] at some index of the array or at its end *)
Lemma splice_insert_at {A} (l : list A) (i : Z) (x : A) :
  exists a, a <= List.length l
            /\ forall (B : Type) (l' : list B) (y : B),
                 List.length l' = List.length l ->
                 splice l i 0 [x] = take a l ++ x :: drop a l
                 /\ splice l' i 0 [y] = take a l' ++ y :: drop a l'.
Proof.
  set (len := Z.of_nat (List.length l)).
  set (a := if (i <? 0)%Z then Z.max (len + i) 0 else Z.min i len).
  assert (0 <= a <= len)%Z as Ha
    by (unfold a, len; destruct (Z.ltb_spec i 0); lia).
  exists (Z.to_nat a). split; [unfold len in Ha; lia|].
  intros B l' y Hlen. unfold splice. rewrite Hlen. fold len. fold a.
  replace (a + Z.min (Z.max 0 0) (len - a))%Z with a by lia.
  done.
Qed.

End SortedSetShape.

Section SortedSetEntries.
Context {K V : Type} `{EqDecision K} `{JsValue V} `{TotalSortKey K}.
Import JsArray TSMap.
Implicit Types (t : TSMap K V) (key : K) (value : V).

(** a call with a new key puts key and value at the same index *)
Lemma sortedSet_fresh_entries t key value :
  StronglySorted key_lt (_keys t) ->
  key ∉ _keys t ->
  List.length (_values t) = List.length (_keys t) ->
  let t' := sortedSet t key value None None in
  exists n, n <= List.length (_keys t)
            /\ _keys t' = take n (_keys t) ++ key :: drop n (_keys t)
            /\ _values t' = take n (_values t) ++ value :: drop n (_values t).
Proof.
  intros Hsorted Hfresh Hlen t'.
  destruct (sortedSet_fresh t key value Hsorted Hfresh) as [_ Hperm].
  fold t' in Hperm. apply Permutation_length in Hperm. simpl in Hperm.
  pose proof (sortedSet_fuel_shape
                (Z.to_nat (Z.of_nat (List.length (_keys t)) - 1 - 0))
                t key value 0 (Z.of_nat (List.length (_keys t)) - 1))
    as Hshape.
  change (sortedSet_fuel _ t key value 0 _) with t' in Hshape. simpl in Hshape.
  destruct Hshape as [Ht'|[[i Ht']|[(i & Hne & Ht')|[Hnil Ht']]]].
  - rewrite Ht' in Hperm. lia.
  - rewrite Ht' in Hperm. simpl in Hperm. lia.
  - destruct (splice_insert_at (_keys t) i key) as (a & Ha & Hsplice).
    destruct (Hsplice V (_values t) value Hlen) as [Hk Hv].
    exists a. rewrite Ht'. simpl. by rewrite Hk, Hv.
  - exists 0. rewrite Ht'. simpl. rewrite Hnil in *. simpl in Hlen.
    apply nil_length_inv in Hlen. rewrite Hlen. by simpl.
Qed.

Lemma sortedSet_all_entries_from (kvs : list (K * V)) t :
  StronglySorted key_lt (_keys t) ->
  NoDup (kvs.*1 ++ _keys t) ->
  List.length (_values t) = List.length (_keys t) ->
  let t' :=
    fold_left (fun t kv => sortedSet t (fst kv) (snd kv) None None) kvs t in
  List.length (_values t') = List.length (_keys t')
  /\ zip (_keys t') (_values t') ≡ₚ kvs ++ zip (_keys t) (_values t).
Proof.
  revert t. induction kvs as [|[k v] kvs IH]; intros t Hsorted Hnd Hlen; simpl.
  - done.
  - simpl in Hnd. apply NoDup_cons in Hnd as [Hk Hnd].
    assert (k ∉ _keys t) as Hfresh.
    { intros Hin. apply Hk. apply elem_of_app. by right. }
    destruct (sortedSet_fresh t k v Hsorted Hfresh) as [Hs Hp].
    destruct (sortedSet_fresh_entries t k v Hsorted Hfresh Hlen)
      as (n & Hn & Hkeys & Hvalues).
    destruct (IH (sortedSet t k v None None)) as [Hlen' Hzip]; [done| |..].
    + rewrite Hp. apply NoDup_app in Hnd as (Hn1 & Hn2 & Hn3).
      apply NoDup_app. split; [done|]. split.
      * intros x Hx. rewrite not_elem_of_cons. split; [|by apply Hn2].
        intros ->. apply Hk. apply elem_of_app. by left.
      * by apply NoDup_cons.
    + rewrite Hkeys, Hvalues, !length_app. simpl.
      rewrite !length_take, !length_drop. lia.
    + split; [done|]. rewrite Hzip, Hkeys, Hvalues.
      rewrite zip_with_app by (rewrite !length_take; lia). simpl.
      rewrite <- Permutation_middle.
      rewrite <- zip_with_app by (rewrite !length_take; lia).
      by rewrite !take_drop, Permutation_middle.
Qed.

(** X10.  Calls [sortedSet(key, value)] with pairwise distinct keys on a
    new map put each value under its key: the two arrays are equally long,
    the pairs of key and value are the ones given, [get] answers for each
    key its value, and [size()] is still [0]. *)
Theorem sortedSet_all_entries (kvs : list (K * V)) :
  NoDup kvs.*1 ->
  let t := sortedSet_all kvs in
  List.length (values t) = List.length (keys t)
  /\ zip (keys t) (values t) ≡ₚ kvs
  /\ (forall k v, (k, v) ∈ kvs -> get t k = v)
  /\ size t = 0.
Proof.
  intros Hnd t.
  destruct (sortedSet_all_entries_from kvs empty) as [Hlen Hzip];
    [constructor|by rewrite app_nil_r|done|].
  rewrite app_nil_r in Hzip. fold (sortedSet_all kvs) in Hlen, Hzip.
  destruct (sortedSet_all_sorted kvs Hnd) as [_ Hperm].
  split; [done|]. split; [done|]. split.
  - intros k v Hin. rewrite <- Hzip in Hin.
    apply list_elem_of_lookup_1 in Hin as [j Hj].
    apply lookup_zip_with_Some in Hj as (k' & v' & [= <- <-] & Hk & Hv).
    unfold t. rewrite (get_lookup (sortedSet_all kvs) k j); [by rewrite Hv| |done].
    unfold I2. fold (keys (sortedSet_all kvs)). by rewrite Hperm.
  - unfold size, t, sortedSet_all.
    generalize (eq_refl : length (empty : TSMap K V) = 0).
    generalize (empty : TSMap K V). clear.
    induction kvs as [|kv kvs IH]; intros t0 Ht0; simpl; [done|].
    apply IH. unfold sortedSet, sortedSet_at.
    by rewrite sortedSet_fuel_length.
Qed.
End SortedSetEntries.

Lemma sortedSet_all_entries_witness :
  let kvs := [(5, PStr "x"); (1, PStr "y"); (9, PStr "z")]%Z in
  TSMap.get (sortedSet_all kvs) 1%Z = PStr "y"
  /\ TSMap.size (sortedSet_all kvs : TSMap.TSMap Z prim) = 0.
Proof.
  intros kvs.
  destruct (sortedSet_all_entries kvs) as (_ & _ & Hget & Hsize).
  - apply (bool_decide_unpack _). vm_compute. exact I.
  - split; [|exact Hsize]. apply Hget.
    apply list_elem_of_In. right. left. reflexivity.
Defined.

Section SortedSetPresent.
Context {K V : Type} `{EqDecision K} `{JsValue V} `{TotalSortKey K}.
Import JsArray TSMap.
Implicit Types (t : TSMap K V) (key : K) (value : V).

(** the search, for a key that stands at index [j] between the bounds *)
Lemma sortedSet_at_present (width : nat) t key value (start end_ : Z) j :
  StronglySorted key_lt (_keys t) ->
  _keys t !! j = Some key ->
  (0 <= start <= Z.of_nat j)%Z ->
  (Z.of_nat j <= end_)%Z ->
  (end_ < Z.of_nat (List.length (_keys t)))%Z ->
  Z.to_nat (end_ - start) <= width ->
  _keys (sortedSet_at t key value start end_) = _keys t.
Proof.
  intros Hsorted Hj. revert start end_.
  induction width as [|width IH]; intros start end_ Hs He Hend Hwidth.
  all: rewrite sortedSet_at_unfold.
  all: destruct (Nat.eqb_spec (List.length (_keys t)) 0) as [|_]; [lia|].
  all: destruct (eq_slot key (_keys t) start); [done|].
  all: destruct (eq_slot key (_keys t) end_); [done|].
  all: destruct (lookup_lt_is_Some_2 (_keys t) (Z.to_nat start)) as [ks Hks];
    [lia|].
  all: destruct (lookup_lt_is_Some_2 (_keys t) (Z.to_nat end_)) as [ke Hke];
    [lia|].
  all: assert (at_ (_keys t) start = Some ks) as Hats
    by (rewrite <- (Z2Nat.id start) by lia; by rewrite at_nat).
  all: assert (at_ (_keys t) end_ = Some ke) as Hate
    by (rewrite <- (Z2Nat.id end_) by lia; by rewrite at_nat).
  all: unfold gt_slot at 1; rewrite Hate; unfold js_gt.
  all: destruct (js_lt ke key) eqn:Hgt.
  1,3: exfalso;
    destruct (sorted_le (_keys t) j (Z.to_nat end_) key ke) as [->|Hlt];
      [done|lia|done|done| |];
    [by rewrite js_lt_irrefl in Hgt
    |by apply (key_lt_irrefl key), (key_lt_trans _ ke)].
  all: unfold lt_slot at 1; rewrite Hats.
  all: destruct (js_lt key ks) eqn:Hlt.
  1,3: exfalso;
    destruct (sorted_le (_keys t) (Z.to_nat start) j ks key) as [->|Hlt'];
      [done|lia|done|done| |];
    [by rewrite js_lt_irrefl in Hlt
    |by apply (key_lt_irrefl key), (key_lt_trans _ ks)].
  all: destruct (Z.geb_spec start end_) as [?|Hse]; [done|].
  - lia.
  - simpl. set (m := (start + (end_ - start) / 2)%Z).
    assert (start <= m < end_)%Z as Hm.
    { unfold m. pose proof (Z.div_pos (end_ - start) 2).
      pose proof (Z.mul_div_le (end_ - start) 2).
      pose proof (Z.div_lt_upper_bound (end_ - start) 2 (end_ - start)). lia. }
    destruct (lookup_lt_is_Some_2 (_keys t) (Z.to_nat m)) as [km Hkm]; [lia|].
    assert (at_ (_keys t) m = Some km) as Hatm
      by (rewrite <- (Z2Nat.id m) by lia; by rewrite at_nat).
    unfold lt_slot, gt_slot, js_gt. rewrite Hatm.
    destruct (js_lt key km) eqn:Hkey_km.
    + assert (Z.of_nat j < m)%Z.
      { destruct (decide (Z.of_nat j < m)%Z) as [|Hge]; [done|]. exfalso.
        destruct (sorted_le (_keys t) (Z.to_nat m) j km key) as [->|Hlt'];
          [done|lia|done|done| |].
        - by rewrite js_lt_irrefl in Hkey_km.
        - by apply (key_lt_irrefl key), (key_lt_trans _ km). }
      apply IH; lia.
    + destruct (js_lt km key) eqn:Hkm_key; [|done].
      assert (m < Z.of_nat j)%Z.
      { destruct (decide (m < Z.of_nat j)%Z) as [|Hge]; [done|]. exfalso.
        destruct (sorted_le (_keys t) j (Z.to_nat m) key km) as [->|Hlt'];
          [done|lia|done|done| |].
        - by rewrite js_lt_irrefl in Hkm_key.
        - by apply (key_lt_irrefl key), (key_lt_trans _ km). }
      apply IH; lia.
Qed.

(** X11.  [sortedSet(key, value)] with a key that is already among the
    sorted keys leaves [_keys] as it is and overwrites nothing: [_values]
    is unchanged, or [value] is spliced into it and the old values all
    remain. *)
Theorem sortedSet_present_key t key value :
  StronglySorted key_lt (_keys t) ->
  key ∈ _keys t ->
  let t' := sortedSet t key value None None in
  _keys t' = _keys t
  /\ (_values t' = _values t
      \/ exists i, _values t' = splice (_values t) i 0 [value]).
Proof.
  intros Hsorted Hin t'.
  apply list_elem_of_lookup_1 in Hin as [j Hj].
  pose proof (lookup_lt_Some _ _ _ Hj) as Hlt.
  assert (_keys t' = _keys t) as Hkeys.
  { unfold t', sortedSet. simpl.
    apply (sortedSet_at_present
             (Z.to_nat (Z.of_nat (List.length (_keys t)) - 1 - 0))
             t key value 0 _ j); try done; lia. }
  split; [done|].
  pose proof (sortedSet_fuel_shape
                (Z.to_nat (Z.of_nat (List.length (_keys t)) - 1 - 0))
                t key value 0 (Z.of_nat (List.length (_keys t)) - 1))
    as Hshape.
  change (sortedSet_fuel _ t key value 0 _) with t' in Hshape. simpl in Hshape.
  destruct Hshape as [Ht'|[[i Ht']|[(i & Hne & Ht')|[Hnil Ht']]]].
  - left. by rewrite Ht'.
  - right. exists i. by rewrite Ht'.
  - exfalso. rewrite Ht' in Hkeys. simpl in Hkeys.
    apply (f_equal List.length) in Hkeys.
    rewrite length_splice_insert in Hkeys. lia.
  - exfalso. rewrite Hnil in Hlt. simpl in Hlt. lia.
Qed.
End SortedSetPresent.

Lemma sortedSet_present_key_witness :
  let t : TSMap.TSMap Z prim :=
    TSMap.mk [1; 5; 9]%Z [PStr "y"; PStr "x"; PStr "z"] 3 in
  TSMap._keys (TSMap.sortedSet t 5%Z (PStr "w") None None) = [1; 5; 9]%Z.
Proof.
  intros t.
  destruct (sortedSet_present_key t 5%Z (PStr "w")) as [Hkeys _].
  - simpl. repeat constructor.
  - apply list_elem_of_In. right. left. reflexivity.
  - exact Hkeys.
Defined.

(** ** fromJSON: when it throws, what it stores, and the way back *)

Section FromJsonFacts.
Import JsArray TSMap Json.
Implicit Types (m t : TSMap prim mval) (v : mval) (j : json).

Lemma json_ind' (P : json -> Prop) :
  (forall p, P (JPrim p)) ->
  (forall elems, Forall P elems -> P (JArr elems)) ->
  (forall proto props,
      match proto with Some o => P o | None => True end ->
      Forall (fun sv => P (snd sv)) props -> P (JObj proto props)) ->
  forall j, P j.
Proof.
  intros Hprim Harr Hobj.
  fix IH 1. intros [p|elems|proto props].
  - apply Hprim.
  - apply Harr. induction elems as [|j elems IHl]; constructor; [apply IH|done].
  - apply Hobj.
    + destruct proto as [o|]; [apply IH|done].
    + induction props as [|[s j] props IHl]; constructor; [apply IH|done].
Qed.

Lemma getValue_raw j : getValue (raw j) = j.
Proof.
  induction j as [p|elems IH|proto props _ _] using json_ind'; simpl; try done.
  f_equal. change (List.map ?f ?l) with (f <$> l).
  rewrite <- list_fmap_compose. rewrite <- (list_fmap_id elems) at 2.
  apply list_fmap_ext. intros i j Hj. simpl.
  rewrite Forall_forall in IH. apply IH. by eapply list_elem_of_lookup_2.
Qed.

Lemma set_all_uncallable t x (l : list (string * option mval)) :
  set_all false t (x :: l) = None.
Proof. unfold set_all. simpl. by induction l. Qed.

Lemma has_own_elem {A} (props : list (string * A)) s :
  has_own props s = true <-> s ∈ props.*1.
Proof.
  split.
  - unfold has_own. induction props as [|[s' a] props IH]; simpl; [done|].
    destruct (String.eqb_spec s s') as [Heq|Hne];
      [intros _; rewrite Heq; by left|].
    intros Hl. right. by apply IH.
  - intros Hin. destruct (has_own props s) eqn:Hown; [done|].
    exfalso. revert Hin. unfold has_own in Hown.
    induction props as [|[s' a] props IH]; simpl in *.
    + by intros ?%elem_of_nil.
    + destruct (String.eqb_spec s s') as [Heq|Hne]; [done|].
      intros [?|?]%elem_of_cons; [done|by apply IH].
Qed.

Lemma elem_of_insert_index n s l x :
  x ∈ (insert_index n s l).*2 <-> x = s \/ x ∈ l.*2.
Proof.
  induction l as [|[m s'] l IH]; simpl.
  - rewrite list_elem_of_singleton, elem_of_nil. tauto.
  - destruct (n <? m)%N; simpl; rewrite !elem_of_cons; [tauto|].
    rewrite IH. tauto.
Qed.

Lemma elem_of_filter_bool {A} (f : A -> bool) (l : list A) x :
  x ∈ List.filter f l <-> x ∈ l /\ f x = true.
Proof. rewrite !list_elem_of_In. apply filter_In. Qed.

(** [Object.keys] lists the own names, all of them and no others *)
Lemma elem_of_own_keys (names : list string) s :
  s ∈ own_keys names <-> s ∈ names.
Proof.
  unfold own_keys. rewrite elem_of_app, elem_of_filter_bool.
  change (List.map snd ?l) with (l.*2).
  assert (s ∈ (fold_right
                 (fun s acc =>
                    match array_index s with
                    | Some n => insert_index n s acc
                    | None => acc
                    end) [] names).*2
          <-> s ∈ names /\ array_index s <> None) as ->.
  { induction names as [|s' names IH]; simpl.
    - rewrite !elem_of_nil. tauto.
    - rewrite elem_of_cons. destruct (array_index s') as [n|] eqn:Hidx.
      + rewrite elem_of_insert_index, IH.
        split.
        * intros [Heq|[? ?]]; [|tauto]. subst s.
          split; [by left|by rewrite Hidx].
        * intros [[?|?] ?]; tauto.
      + rewrite IH. split; [tauto|].
        intros [[Heq|?] ?]; [subst s; congruence|tauto]. }
  destruct (array_index s); split; try tauto.
  intros Hin. left. split; [done|congruence].
Qed.

(** X12.  [fromJSON] throws on [null] and on [undefined], and on every
    object that has an own property named [hasOwnProperty]; on an object
    with the prototype of [{}] and no such property it does not throw,
    when [convertObjs] is not given. *)
Theorem fromJSON_throws t proto props convertObjs :
  fromJSON t (JPrim PNull) convertObjs = None
  /\ fromJSON t (JPrim PUndefined) convertObjs = None
  /\ (has_own props "hasOwnProperty" = true ->
      fromJSON t (JObj proto props) convertObjs = None)
  /\ (has_own props "hasOwnProperty" = false ->
      is_Some (fromJSON t (JObj None props) false)).
Proof.
  split; [done|]. split; [done|]. split.
  - intros Hown. unfold fromJSON. cbn [own_properties hasOwnProperty_callable].
    rewrite Hown. cbn [negb andb].
    assert ("hasOwnProperty" ∈ own_keys (List.map fst props)) as Hin.
    { apply elem_of_own_keys. by apply has_own_elem. }
    unfold own_entries. destruct (own_keys (List.map fst props)) as [|s l].
    + by apply elem_of_nil in Hin.
    + apply set_all_uncallable.
  - intros Hown. unfold fromJSON. cbn [own_properties hasOwnProperty_callable].
    rewrite Hown. cbn [negb andb inherited is_builtin].
    generalize (own_entries (JPrim PUndefined) props). intros l.
    assert (List.map (fun pv => (fst pv, setProperty false (snd pv))) l
            = prod_map id Some <$> (prod_map id raw <$> l)) as ->.
    { change (List.map ?f ?l) with (f <$> l).
      rewrite <- list_fmap_compose. apply list_fmap_ext.
      intros i [s v] _. simpl. by rewrite setProperty_false. }
    rewrite set_all_Some. eauto.
Qed.
End FromJsonFacts.

Lemma fromJSON_throws_witness :
  Json.fromJSON (TSMap.empty : TSMap.TSMap prim Json.mval)
    (Json.JObj None
       [("a", Json.JPrim (PNum 1)); ("hasOwnProperty", Json.JPrim (PNum 2))])
    false
  = None.
Proof.
  destruct (fromJSON_throws TSMap.empty None
              [("a", Json.JPrim (PNum 1));
               ("hasOwnProperty", Json.JPrim (PNum 2))] false)
    as (_ & _ & Hthrows & _).
  apply Hthrows. reflexivity.
Defined.

Section FromJsonRoundTrip.
Import JsArray TSMap Json.
Implicit Types (m t : TSMap prim mval) (v : mval) (j : json).

Lemma plain_names_spec (props : list (string * json)) :
  plain_names props = true ->
  Forall (fun s => plain_key (PStr s) = true) props.*1 /\ NoDup props.*1.
Proof.
  unfold plain_names. rewrite andb_true_iff, forallb_forall.
  intros [Hall Hnd%bool_decide_eq_true_1]. split; [|done].
  apply Forall_forall. intros s Hs. apply Hall. by apply list_elem_of_In.
Qed.

(** [toJSON] of a map with plain keys, I1 and I2 *)
Lemma toJSON_plain m :
  Forall (fun k => plain_key k = true) (_keys m) -> I2 m -> I1 m ->
  toJSON m
  = JObj None ((fun kv => (String_ (fst kv), getValue (snd kv)))
                 <$> zip (_keys m) (_values m)).
Proof.
  intros Hplain Hnd HI1. unfold toJSON, keys.
  rewrite toJSON_loop_plain by done. f_equal.
  rewrite <- entries_zip by done.
  unfold entries, keys. change (List.map ?f ?l) with (f <$> l).
  by rewrite <- list_fmap_compose.
Qed.

(** [fromJSON] on an object with plain names whose values are stored as
    [g] says, and [toJSON] of the map it builds *)
Lemma fromJSON_plain (convertObjs : bool) (g : json -> mval)
    (props : list (string * json)) :
  plain_names props = true ->
  Forall (fun pv => setProperty convertObjs (snd pv) = Some (g (snd pv))
                    /\ getValue (g (snd pv)) = snd pv) props ->
  let m := mk (PStr <$> props.*1) (g <$> props.*2) (List.length props) in
  fromJSON empty (JObj None props) convertObjs = Some m
  /\ toJSON m = JObj None props.
Proof.
  intros [Hplain Hnd]%plain_names_spec Hvalues m.
  assert (NoDup (PStr <$> props.*1)) as Hnd'.
  { apply NoDup_fmap_2; [|done]. by intros ?? [=]. }
  assert (I1 m) as HI1 by (split; simpl; by rewrite !length_fmap).
  split.
  - unfold fromJSON. cbn [own_properties].
    rewrite own_entries_plain; [|by eapply Forall_impl; [done|];
                                  intros s [? _]%plain_key_spec|done].
    assert (hasOwnProperty_callable (JObj None props) = true) as ->.
    { simpl. rewrite has_own_fresh; [done|]. intros Hin.
      rewrite Forall_forall in Hplain.
      by destruct (plain_key_spec _ (Hplain _ Hin)) as (_ & _ & ?). }
    assert (List.map (fun pv => (fst pv, setProperty convertObjs (snd pv))) props
            = prod_map id Some <$> (prod_map id g <$> props)) as ->.
    { change (List.map ?f ?l) with (f <$> l).
      rewrite <- list_fmap_compose. apply list_fmap_ext.
      intros i [s v] Hsv. simpl. unfold prod_map. simpl. f_equal.
      rewrite Forall_forall in Hvalues.
      by destruct (Hvalues (s, v) (list_elem_of_lookup_2 _ _ _ Hsv)) as [? _]. }
    rewrite set_all_Some, set_each_new; [|apply empty_I1|].
    + simpl. unfold m. f_equal. rewrite <- !list_fmap_compose.
      rewrite length_fmap.
      f_equal; by apply list_fmap_ext; intros i [s v] _.
    + simpl. rewrite <- !list_fmap_compose.
      rewrite <- list_fmap_compose in Hnd'.
      erewrite list_fmap_ext; [exact Hnd'|]. by intros i [s v] _.
  - rewrite toJSON_plain; [| |done|done].
    + f_equal. simpl. apply list_eq. intros i.
      rewrite list_lookup_fmap, lookup_zip_with, !list_lookup_fmap.
      destruct (props !! i) as [[s v]|] eqn:Hsv; simpl; [|done]. do 2 f_equal.
      rewrite Forall_forall in Hvalues.
      by destruct (Hvalues (s, v) (list_elem_of_lookup_2 _ _ _ Hsv)) as [_ ?].
    + simpl. by apply Forall_fmap.
Qed.
Lemma plain_json_obj (props : list (string * json)) :
  plain_json (JObj None props) = true ->
  plain_names props = true
  /\ Forall (fun pv => plain_json (snd pv) = true) props.
Proof.
  cbn [plain_json]. unfold plain_names.
  rewrite andb_true_iff. intros [-> Hall]. split; [done|].
  induction props as [|[s j] props IH]; [constructor|].
  apply andb_true_iff in Hall as [Hj Hall]. constructor; [done|by apply IH].
Qed.

Lemma convert_plain j :
  plain_json j = true -> exists v, convert j = Some v /\ getValue v = j.
Proof.
  induction j as [p|elems _|proto props _ IH] using json_ind'; [by eexists|done|].
  destruct proto as [o|]; [done|].
  intros [Hnames Hvalues]%plain_json_obj.
  destruct (fromJSON_plain true (fun j => default (VPrim PUndefined) (convert j))
              props Hnames) as [Hfrom Hto].
  { rewrite Forall_forall in IH, Hvalues. apply Forall_forall. intros pv Hpv.
    destruct (IH pv Hpv (Hvalues pv Hpv)) as (v & Hv & Hback).
    rewrite setProperty_true, Hv. by simpl. }
  eexists. rewrite convert_unfold, Hfrom. split; [done|].
  by rewrite getValue_VMap.
Qed.

(** X13.  From JSON to a map and back.  For an object with the prototype
    of [{}] whose own names are pairwise distinct and none of them an
    array index, [__proto__] or [hasOwnProperty], [fromJSON] on a new map
    builds a map with one key for each name, in the order of the object,
    whose [toJSON()] is the object again; with [convertObjs] this holds
    when the values are primitives or such objects, to any depth. *)
Theorem fromJSON_toJSON_roundtrip (props : list (string * json)) :
  (plain_names props = true ->
   exists m, fromJSON empty (JObj None props) false = Some m
             /\ keys m = PStr <$> props.*1
             /\ toJSON m = JObj None props)
  /\ (plain_json (JObj None props) = true ->
      exists m, fromJSON empty (JObj None props) true = Some m
                /\ keys m = PStr <$> props.*1
                /\ toJSON m = JObj None props).
Proof.
  split.
  - intros Hnames.
    destruct (fromJSON_plain false raw props Hnames) as [Hfrom Hto].
    { apply Forall_forall. intros pv _.
      by rewrite setProperty_false, getValue_raw. }
    eexists. split; [exact Hfrom|]. split; [done|exact Hto].
  - intros [Hnames Hvalues]%plain_json_obj.
    destruct (fromJSON_plain true
                (fun j => default (VPrim PUndefined) (convert j))
                props Hnames) as [Hfrom Hto].
    { rewrite Forall_forall in Hvalues. apply Forall_forall. intros pv Hpv.
      destruct (convert_plain (snd pv) (Hvalues pv Hpv)) as (v & Hv & Hback).
      rewrite setProperty_true, Hv. by simpl. }
    eexists. split; [exact Hfrom|]. split; [done|exact Hto].
Qed.

Lemma last_binding_names {A} (g : A -> mval) (read : string -> A)
    (names : list string) s :
  last_binding ((fun s' => (PStr s', g (read s'))) <$> names) (PStr s)
  = if decide (s ∈ names) then Some (g (read s)) else None.
Proof.
  induction names as [|s' names IH]; [done|].
  rewrite fmap_cons. cbn [last_binding]. rewrite IH.
  destruct (decide (s ∈ names)) as [Hin|Hnot].
  - rewrite decide_True; [done|by right].
  - destruct (decide (PStr s = PStr s')) as [[= ->]|Hne].
    + rewrite decide_True; [done|by left].
    + rewrite decide_False; [done|].
      intros [->|?]%elem_of_cons; [by destruct Hne|done].
Qed.

Lemma last_binding_not_name {A} (g : A -> mval) (read : string -> A)
    (names : list string) k :
  (forall s, k <> PStr s) ->
  last_binding ((fun s' => (PStr s', g (read s'))) <$> names) k = None.
Proof.
  intros Hk. induction names as [|s' names IH]; [done|].
  rewrite fmap_cons. cbn [last_binding]. rewrite IH.
  rewrite decide_False; [done|apply Hk].
Qed.

(** X14.  [fromJSON] without [convertObjs] on a map with I1, given an
    object whose [hasOwnProperty] is the method of [Object.prototype]:
    it does not throw; the map keeps I1, and I2 when it had it; the keys it
    had stay where they were; [get] answers for each own name of the
    object its value, stored as it is, and for every other key what it
    answered before. *)
Theorem fromJSON_merges t proto (props : list (string * json)) :
  I1 t ->
  hasOwnProperty_callable (JObj proto props) = true ->
  exists t',
    fromJSON t (JObj proto props) false = Some t'
    /\ I1 t' /\ (I2 t -> I2 t')
    /\ (exists new_keys, keys t' = keys t ++ new_keys)
    /\ (forall s,
          get t' (PStr s)
          = match obj_lookup props s with
            | Some v => raw v
            | None => get t (PStr s)
            end)
    /\ (forall k, (forall s, k <> PStr s) -> get t' k = get t k).
Proof.
  intros HI1 Hcall.
  set (kvs := (fun s => (PStr s,
                         raw (default (JPrim PUndefined) (obj_lookup props s))))
                <$> own_keys (List.map fst props)).
  assert (fromJSON t (JObj proto props) false
          = Some (fold_left (fun t kv => set t (fst kv) (snd kv)) kvs t))
    as Hfrom.
  { unfold fromJSON. cbn [own_properties]. rewrite Hcall.
    assert (List.map (fun pv => (fst pv, setProperty false (snd pv)))
              (own_entries (JPrim PUndefined) props)
            = prod_map id Some
                <$> (prod_map id raw <$> own_entries (JPrim PUndefined) props))
      as ->.
    { change (List.map ?f ?l) with (f <$> l).
      rewrite <- list_fmap_compose. apply list_fmap_ext.
      intros i [s v] _. simpl. by rewrite setProperty_false. }
    rewrite set_all_Some. do 2 f_equal. unfold kvs, own_entries.
    change (List.map ?f ?l) with (f <$> l).
    by rewrite <- !list_fmap_compose. }
  eexists. split; [exact Hfrom|]. split; [|split; [|split; [|split]]].
  - eapply fromJSON_I1; [exact HI1|exact Hfrom].
  - apply fold_set_I2.
  - unfold keys. rewrite fold_set_keys. eauto.
  - intros s. rewrite fold_set_get by done. unfold kvs.
    rewrite (last_binding_names raw
               (fun s => default (JPrim PUndefined) (obj_lookup props s))).
    destruct (decide (s ∈ own_keys (List.map fst props))) as [Hin|Hnot].
    + apply elem_of_own_keys, has_own_elem in Hin. unfold has_own in Hin.
      by destruct (obj_lookup props s).
    + rewrite elem_of_own_keys in Hnot.
      change (List.map fst props) with (props.*1) in Hnot.
      rewrite <- has_own_elem in Hnot.
      unfold has_own in Hnot. by destruct (obj_lookup props s).
  - intros k Hk. rewrite fold_set_get by done. unfold kvs.
    by rewrite (last_binding_not_name raw
                  (fun s => default (JPrim PUndefined) (obj_lookup props s))).
Qed.
End FromJsonRoundTrip.

Lemma fromJSON_toJSON_roundtrip_witness :
  let props :=
    [("a", Json.JPrim (PNum 1));
     ("b", Json.JObj None [("c", Json.JPrim (PNum 2))])] in
  exists m,
    Json.fromJSON TSMap.empty (Json.JObj None props) true = Some m
    /\ TSMap.keys m = PStr <$> props.*1
    /\ Json.toJSON m = Json.JObj None props.
Proof.
  intros props.
  apply (proj2 (fromJSON_toJSON_roundtrip props)). vm_compute. reflexivity.
Defined.

Lemma fromJSON_merges_witness :
  let t : TSMap.TSMap prim Json.mval :=
    TSMap.mk [PStr "a"; PStr "z"]
      [Json.VPrim (PNum 0); Json.VPrim (PNum 9)] 2 in
  exists t',
    Json.fromJSON t
      (Json.JObj None [("b", Json.JPrim (PNum 2)); ("a", Json.JPrim (PNum 1))])
      false
    = Some t'
    /\ TSMap.get t' (PStr "a") = Json.VPrim (PNum 1)
    /\ TSMap.get t' (PStr "z") = Json.VPrim (PNum 9).
Proof.
  intros t.
  destruct (fromJSON_merges t None
              [("b", Json.JPrim (PNum 2)); ("a", Json.JPrim (PNum 1))])
    as (t' & Hfrom & _ & _ & _ & Hget & _).
  - split; reflexivity.
  - reflexivity.
  - exists t'. split; [exact Hfrom|].
    split; [exact (Hget "a")|exact (Hget "z")].
Defined.

(** ** The earlier class *)

Section EarlierClass.
Context {K V : Type} `{EqDecision K} `{JsValue V}.
Import JsArray.
Implicit Types (t : tsMap.tsMap K V) (key : K) (value : V)
  (es : list (K * V)).

Lemma in_step_of_entries t : in_step t -> t = of_entries (tsMap._items t).
Proof.
  intros (Hitems & Hlen & Hn). destruct t as [items ks vs n]. simpl in *.
  subst items n. unfold of_entries. by rewrite fst_zip, snd_zip by lia.
Qed.

Lemma of_entries_in_step es : in_step (of_entries es).
Proof.
  unfold in_step, of_entries. simpl. rewrite !length_fmap.
  split; [|done]. by rewrite zip_fst_snd.
Qed.

Lemma get_of_entries es n key value :
  NoDup es.*1 -> es !! n = Some (key, value) ->
  tsMap.get (of_entries es) key = value.
Proof.
  intros Hnd Hn. unfold tsMap.get. simpl.
  rewrite (indexOf_lookup_NoDup es.*1 key n);
    [|done|by rewrite list_lookup_fmap, Hn].
  destruct (Z.gtb_spec (Z.of_nat n) (-1)); [|lia].
  by rewrite at_nat, list_lookup_fmap, Hn.
Qed.

Lemma delete_of_entries es n key value :
  NoDup es.*1 -> es !! n = Some (key, value) ->
  tsMap.delete (of_entries es) key = (of_entries (base.delete n es), true).
Proof.
  intros Hnd Hn. pose proof (lookup_lt_Some _ _ _ Hn) as Hlt.
  unfold tsMap.delete. simpl.
  rewrite (indexOf_lookup_NoDup es.*1 key n);
    [|done|by rewrite list_lookup_fmap, Hn].
  destruct (Z.gtb_spec (Z.of_nat n) (-1)); [|lia].
  rewrite !splice_delete_nat by by rewrite ?length_fmap.
  unfold of_entries. rewrite delete_take_drop.
  by rewrite !fmap_app, !fmap_take, !fmap_drop.
Qed.

Lemma set_of_entries es key value :
  NoDup es.*1 ->
  exists es', tsMap.set (of_entries es) key value = Some (of_entries es')
              /\ NoDup es'.*1.
Proof.
  intros Hnd. unfold tsMap.set. simpl.
  destruct (indexOf es.*1 key >? -1)%Z eqn:Hi.
  - destruct (indexOf_found _ _ Hi) as (n & Hn & Hk & Hlt & _).
    rewrite length_fmap in Hlt.
    destruct (lookup_lt_is_Some_2 es n Hlt) as [[k v] Hkv].
    rewrite Hn, at_nat, Hkv, Nat2Z.id. simpl.
    exists (<[n := (k, value)]> es). split.
    + unfold of_entries. rewrite assign_nat by by rewrite length_fmap.
      rewrite length_insert, !list_fmap_insert. simpl.
      do 2 f_equal. symmetry. apply list_insert_id.
      by rewrite list_lookup_fmap, Hkv.
    + rewrite list_fmap_insert. simpl. rewrite list_insert_id; [done|].
      by rewrite list_lookup_fmap, Hkv.
  - exists (es ++ [(key, value)]). split.
    + unfold of_entries, push. by rewrite !fmap_app.
    + rewrite fmap_app. simpl. apply NoDup_app. split; [done|].
      split; [|apply NoDup_singleton].
      intros x Hx ->%list_elem_of_singleton.
      by apply indexOf_missing in Hi.
Qed.

(** X16.  In the earlier class, for keys other than [NaN] (on which
    [===] is equality), after any sequence of [set], [delete] and
    [clear] on a new map no call has thrown, the three arrays are in step
    ([_items[i]] is the pair of [_keys[i]] and [_values[i]]), no key
    stands twice, and [size()], [length] and the length of [keys()]
    agree. *)
Theorem run_old_in_step (cs : list (call_old K V)) :
  exists t, run_old cs = Some t
            /\ in_step t /\ NoDup (tsMap.keys t)
            /\ tsMap.size t = tsMap.length t
            /\ tsMap.size t = List.length (tsMap.keys t).
Proof.
  enough (forall es, NoDup es.*1 ->
            exists es',
              fold_left (fun ot c => ot ≫= fun t => perform_old t c) cs
                (Some (of_entries es)) = Some (of_entries es')
              /\ NoDup es'.*1) as Hgen.
  { destruct (Hgen []) as (es' & Hrun & Hnd); [constructor|].
    exists (of_entries es'). split; [exact Hrun|].
    split; [apply of_entries_in_step|]. split; [done|].
    unfold tsMap.size. simpl. by rewrite length_fmap. }
  induction cs as [|c cs IH]; intros es Hnd; simpl.
  - eauto.
  - destruct c as [key value|key|]; simpl.
    + destruct (set_of_entries es key value Hnd) as (es' & -> & Hnd').
      by apply IH.
    + destruct (decide (key ∈ es.*1)) as [Hin|Hnot].
      * apply list_elem_of_lookup_1 in Hin as [n Hn].
        rewrite list_lookup_fmap in Hn.
        destruct (es !! n) as [[k v]|] eqn:Hkv; simplify_eq/=.
        rewrite (delete_of_entries es n key v) by done. simpl.
        apply IH. rewrite delete_take_drop, fmap_app, fmap_take, fmap_drop.
        rewrite <- (take_drop_middle es.*1 n key) in Hnd
          by by rewrite list_lookup_fmap, Hkv.
        apply NoDup_app in Hnd as (Ht & Hcross & Hd).
        apply NoDup_cons in Hd as [Hk Hd].
        apply NoDup_app. split; [done|]. split; [|done].
        intros x Hx Hx'. apply (Hcross x Hx). by right.
      * assert (tsMap.delete (of_entries es) key = (of_entries es, false))
          as ->; [|by apply IH].
        unfold tsMap.delete. simpl. by rewrite indexOf_not_elem.
    + apply (IH []). constructor.
Qed.

Lemma filter_live_idle (callbackfn : V -> K -> bool) n a t :
  List.length (tsMap._keys t) <= a ->
  fold_left
    (fun t i =>
       match tsMap._keys t !! i with
       | Some v =>
           if negb (callbackfn (tsMap.get t v) v) then fst (tsMap.delete t v)
           else t
       | None => t
       end)
    (seq a n) t = t.
Proof.
  revert a. induction n as [|n IH]; intros a Ha; simpl; [done|].
  rewrite lookup_ge_None_2 by done. apply IH. lia.
Qed.

Lemma filter_live_from (callbackfn : V -> K -> bool) n (P R : list (K * V)) :
  NoDup (P ++ R).*1 ->
  List.length R <= n ->
  fold_left
    (fun t i =>
       match tsMap._keys t !! i with
       | Some v =>
           if negb (callbackfn (tsMap.get t v) v) then fst (tsMap.delete t v)
           else t
       | None => t
       end)
    (seq (List.length P) n) (of_entries (P ++ R))
  = of_entries (P ++ kept_live callbackfn R).
Proof.
  revert P R. induction n as [|n IH]; intros P R Hnd Hn.
  - destruct R; [done|simpl in Hn; lia].
  - cbn [seq fold_left].
    destruct R as [|[k v] R].
    + cbn [of_entries tsMap._keys].
      rewrite lookup_ge_None_2 by (rewrite app_nil_r, length_fmap; lia).
      apply filter_live_idle. simpl. rewrite app_nil_r, length_fmap. lia.
    + assert ((P ++ (k, v) :: R) !! List.length P = Some (k, v)) as Hat.
      { rewrite lookup_app_r by lia. by rewrite Nat.sub_diag. }
      assert (tsMap._keys (of_entries (P ++ (k, v) :: R)) !! List.length P
              = Some k) as -> by (simpl; by rewrite list_lookup_fmap, Hat).
      rewrite (get_of_entries _ _ _ _ Hnd Hat). cbn [kept_live].
      destruct (callbackfn v k); cbn [negb].
      * specialize (IH (P ++ [(k, v)]) R).
        rewrite length_app, Nat.add_1_r, <- !app_assoc in IH.
        apply IH; [done|simpl in Hn; lia].
      * rewrite (delete_of_entries _ _ _ _ Hnd Hat). cbn [fst].
        assert (base.delete (List.length P) (P ++ (k, v) :: R) = P ++ R) as ->.
        { rewrite delete_take_drop, take_app_length.
          rewrite drop_app_ge by lia.
          by replace (S (List.length P) - List.length P) with 1 by lia. }
        assert (NoDup (P ++ R).*1) as Hnd'.
        { rewrite fmap_app in Hnd |- *. simpl in Hnd.
          apply NoDup_app in Hnd as (Hp & Hcross & Hr).
          apply NoDup_cons in Hr as [_ Hr].
          apply NoDup_app. split; [done|]. split; [|done].
          intros x Hx Hx'. apply (Hcross x Hx). by right. }
        destruct R as [|x R].
        -- apply filter_live_idle. simpl. rewrite app_nil_r, length_fmap. lia.
        -- specialize (IH (P ++ [x]) R).
           rewrite length_app, Nat.add_1_r, <- !app_assoc in IH.
           apply IH; [done|simpl in Hn; lia].
Qed.

(** X17.  The [filter] of the earlier class, for keys other than [NaN]
    (on which [===] is equality), on a map whose arrays are in
    step and whose keys are pairwise distinct: it walks the array it
    deletes from, so after every entry it removes it keeps the next entry
    without asking the callback. *)
Theorem filter_live_skips t (callbackfn : V -> K -> bool) :
  in_step t -> NoDup (tsMap._keys t) ->
  tsMap.filter t callbackfn
  = of_entries (kept_live callbackfn (tsMap.entries t)).
Proof.
  intros Hstep Hnd. rewrite (in_step_of_entries t Hstep) in Hnd |- *.
  unfold tsMap.filter, tsMap.entries. simpl in *. rewrite length_fmap.
  apply (filter_live_from callbackfn _ [] (tsMap._items t)); [done|lia].
Qed.
End EarlierClass.

Lemma filter_live_skips_witness :
  let t : tsMap.tsMap prim prim :=
    of_entries [(PStr "a", PNum 1); (PStr "b", PNum 2);
                (PStr "c", PNum 3); (PStr "d", PNum 4)] in
  tsMap.keys (tsMap.filter t (fun _ _ => false)) = [PStr "b"; PStr "d"].
Proof.
  intros t. rewrite (filter_live_skips t (fun _ _ => false)).
  - reflexivity.
  - apply of_entries_in_step.
  - apply (bool_decide_unpack _). vm_compute. exact I.
Defined.

(** ** Arrays under convertObjs, and the names toJSON writes *)

Section ArrayConversion.
Import JsArray TSMap Json.
Implicit Types (m t : TSMap prim mval) (v : mval) (j : json).

(** [String] of a number tells the numbers apart *)
Lemma String_PNum_inj n n' : String_ (PNum n) = String_ (PNum n') -> n = n'.
Proof.
  simpl. intros Heq. apply DecimalZ.to_int_inj.
  assert (forall z, NilZero.int_of_string (NilZero.string_of_int (Z.to_int z))
                    = Some (Z.to_int z)) as Hback.
  { intros z. apply NilZero.isi; destruct z; simpl; try discriminate.
    - intros [= Hnil]. by apply DecimalPos.Unsigned.to_uint_nonnil in Hnil.
    - intros [= Hnil]. by apply DecimalPos.Unsigned.to_uint_nonnil in Hnil. }
  pose proof (Hback n) as Hn. rewrite Heq, Hback in Hn. congruence.
Qed.

Lemma index_name_inj i i' : index_name i = index_name i' -> i = i'.
Proof. intros Heq%String_PNum_inj. lia. Qed.

(** X18.  With [convertObjs], [setProperty] turns an array whose elements
    it converts to [vs] into a map, not an array: the keys of the map are
    the indices ["0"], ["1"], ... as strings, its values are [vs], and its
    [length] is the length of the array. *)
Theorem setProperty_array_index_keys (elems : list json) (vs : list mval) :
  Forall2 (fun j v => setProperty true j = Some v) elems vs ->
  setProperty true (JArr elems)
  = Some (VMap (mk (PStr ∘ index_name <$> seq 0 (List.length elems)) vs
                  (List.length elems))).
Proof.
  intros Hall. rewrite setProperty_true. cbn [convert].
  assert (List.map convert elems = Some <$> vs) as ->.
  { change (List.map ?f ?l) with (f <$> l).
    induction Hall as [|j v elems vs Hj _ IH]; [done|].
    rewrite !fmap_cons, IH. by rewrite setProperty_true in Hj; rewrite Hj. }
  pose proof (Forall2_length _ _ _ Hall) as Hlen.
  assert (imap (fun i c => (index_name i, c)) (Some <$> vs)
          = prod_map id Some <$> imap (fun i v => (index_name i, v)) vs) as ->.
  { rewrite imap_fmap, fmap_imap. by apply imap_ext. }
  rewrite set_all_Some. simpl. do 2 f_equal.
  assert ((prod_map PStr id <$> imap (fun i v => (index_name i, v)) vs).*1
          = PStr ∘ index_name <$> seq 0 (List.length elems)) as Hkeys.
  { rewrite <- list_fmap_compose, fmap_imap, Hlen.
    apply (imap_seq_0 vs (PStr ∘ index_name)). }
  rewrite set_each_new; [|apply empty_I1|].
  - simpl. rewrite Hkeys. f_equal.
    + rewrite <- list_fmap_compose, fmap_imap.
      rewrite (imap_ext _ (fun _ v => v)) by done.
      rewrite <- (list_fmap_id vs) at 2. apply (imap_const id).
    + by rewrite length_fmap, length_seq.
  - simpl. rewrite Hkeys. apply NoDup_fmap_2; [|apply NoDup_seq].
    intros i i' [= Heq]. by apply index_name_inj.
Qed.

Lemma obj_update_names {A} (props : list (string * A)) s (a : A) :
  (obj_update props s a).*1 = props.*1.
Proof.
  induction props as [|[s' a'] props IH]; simpl; [done|].
  destruct (String.eqb s s'); simpl; [done|]. f_equal. apply IH.
Qed.

Lemma obj_set_names (o : option json * list (string * json)) s (v : json) s' :
  s' ∈ (snd (obj_set o s v)).*1 -> s' ∈ (snd o).*1 \/ s' = s.
Proof.
  destruct o as [proto props]. unfold obj_set.
  destruct (has_own props s).
  - cbn [snd]. rewrite obj_update_names. by left.
  - destruct (_ && _).
    + destruct v as [[]| |]; cbn [snd]; by left.
    + cbn [snd]. rewrite fmap_app, elem_of_app. cbn [fmap list_fmap fst].
      rewrite list_elem_of_singleton. tauto.
Qed.

Lemma toJSON_loop_names (ks : list prim) (read : prim -> json)
    (o : option json * list (string * json)) s :
  s ∈ (snd (fold_left (fun obj k => obj_set obj (String_ k) (read k)) ks o)).*1 ->
  s ∈ (snd o).*1 \/ exists k, k ∈ ks /\ String_ k = s.
Proof.
  revert o. induction ks as [|k ks IH]; intros o; simpl.
  - by left.
  - intros Hin. apply IH in Hin as [Hin|(k' & Hk' & <-)].
    + apply obj_set_names in Hin as [?| ->]; [by left|].
      right. exists k. split; [by left|done].
    + right. exists k'. split; [by right|done].
Qed.

(** X19.  The object that [toJSON()] answers has no own property but
    under the [String] of a key of the map.  On a map with I1 and I2 whose
    keys are strings other than array indices, [__proto__] and
    [hasOwnProperty], it has the prototype of [{}] and exactly one
    property for each key, created in the order of the keys, holding the
    unwrapped value. *)
Theorem toJSON_properties m :
  (forall proto props s,
      toJSON m = JObj proto props -> s ∈ props.*1 ->
      exists k, k ∈ keys m /\ String_ k = s)
  /\ (Forall (fun k => plain_key k = true) (keys m) -> I1 m -> I2 m ->
      toJSON m
      = JObj None ((fun kv => (String_ (fst kv), getValue (snd kv)))
                     <$> zip (keys m) (values m))).
Proof.
  split.
  - intros proto props s. unfold toJSON, toJSON_loop.
    destruct (fold_left _ _ _) as [proto' props'] eqn:Hloop.
    intros [= <- <-] Hin.
    destruct (toJSON_loop_names (keys m) (fun k => getValue (get m k))
                (None, []) s) as [Hnil|?]; [by rewrite Hloop| |done].
    by apply elem_of_nil in Hnil.
  - intros Hplain HI1 HI2. by apply toJSON_plain.
Qed.
End ArrayConversion.

Lemma setProperty_array_index_keys_witness :
  Json.setProperty true
    (Json.JArr [Json.JPrim (PNum 7); Json.JObj None [("c", Json.JPrim PNull)]])
  = Some (Json.VMap
            (TSMap.mk [PStr "0"; PStr "1"]
               [Json.VPrim (PNum 7);
                Json.VMap (TSMap.mk [PStr "c"] [Json.VPrim PNull] 1)] 2)).
Proof.
  apply (setProperty_array_index_keys
           [Json.JPrim (PNum 7); Json.JObj None [("c", Json.JPrim PNull)]]
           [Json.VPrim (PNum 7);
            Json.VMap (TSMap.mk [PStr "c"] [Json.VPrim PNull] 1)]).
  repeat constructor.
Defined.

Lemma toJSON_properties_witness :
  let m := TSMap.mk [PStr "a"; PStr "b"]
             [Json.VPrim (PNum 1); Json.VArr [Json.VPrim (PNum 2)]] 2 in
  Json.toJSON m
  = Json.JObj None
      [("a", Json.JPrim (PNum 1)); ("b", Json.JArr [Json.JPrim (PNum 2)])].
Proof.
  intros m. rewrite (proj2 (toJSON_properties m)).
  - reflexivity.
  - repeat constructor.
  - split; reflexivity.
  - apply (bool_decide_unpack _). vm_compute. exact I.
Defined.
